(** * Portfolio gallery (script.js): a shallow embedding and its properties

    The development follows the structure of [script.js]:

    - [Js]        : the JavaScript values the script manipulates (JSON data,
                    strings as sequences of code units, abrupt completion);
    - [Regex]     : the backtracking matcher behind [String.prototype.match],
                    for the fragment of the regular expression syntax that
                    the script uses;
    - [DateParser]: [parseYearMonth];
    - [Loader]    : the normalisation and sorting done by [loadProjects];
    - [Filter]    : [filterProjects];
    - [Modal]     : [openProjectModal], [nextMedia], [prevMedia], [closeModal];
    - [LazyLoad]  : [isInViewport], [initLazyLoading], [lazyLoadHandler],
                    [loadImage], [loadIframe], and what [renderProjects]
                    does to the lazy elements of the page;
    - [Text], [Embed], [ModalView]: [createMediaElement], [createLinksHTML]
                    and [updateModal];
    - [FilterClicks]: the click handlers of the filter buttons;
    - [Counts]    : [calculateCategoryCounts];
    - [Thumbnails]: [preCacheThumbnails], [createThumbnailContent],
                    [createProjectElement];
    - [Grid]      : [getCategoryLabel], [showEmptyState], [renderProjects];
    - [Startup]   : [loadProjects] as a whole.

    Strings are [string]s of the Standard Library: sequences of 8-bit
    characters, read as the UTF-16 code units 0..255 of a JavaScript string.
    Numbers that the script computes with are integers well inside the range
    where JavaScript's doubles are exact; they are modelled in [Z]. *)

From Stdlib Require Import ZArith NArith Bool List Lia.
From Stdlib Require Import Ascii String.
From Stdlib Require Import Sorted Permutation.
Import ListNotations.

Set Warnings "-register-all".

Local Open Scope string_scope.
Local Open Scope Z_scope.

(* ================================================================== *)
(** ** JavaScript values *)

Module Js.

(** A value obtained from [JSON.parse], or [undefined] for a property
    that the object does not have.  JSON numbers are restricted to
    integers. *)
Inductive jsval : Type :=
| JUndefined
| JNull
| JBool (b : bool)
| JNum (z : Z)
| JStr (s : string)
| JArr (l : list jsval)
| JObj (fields : list (string * jsval)).

(** [ToBoolean]: what [!v] and [v || d] test. *)
Definition truthy (v : jsval) : bool :=
  match v with
  | JUndefined | JNull => false
  | JBool b => b
  | JNum z => negb (z =? 0)
  | JStr s => negb (String.eqb s "")
  | JArr _ | JObj _ => true
  end.

(** [a || b]. *)
Definition or_else (a b : jsval) : jsval := if truthy a then a else b.

(** [v === s] for a string [s]: strict equality never converts. *)
Definition strict_eq_str (v : jsval) (s : string) : bool :=
  match v with
  | JStr t => String.eqb t s
  | _ => false
  end.

(** The outcome of running a piece of code: a value, or a thrown error. *)
Inductive completion (A : Type) : Type :=
| Normal (a : A)
| Throw (message : string).
Arguments Normal {A} a.
Arguments Throw {A} message.

Definition bind {A B} (c : completion A) (f : A -> completion B)
  : completion B :=
  match c with
  | Normal a => f a
  | Throw m => Throw m
  end.

(** *** Characters *)

Definition code (c : ascii) : N := N_of_ascii c.

Definition in_range (lo hi : N) (c : ascii) : bool :=
  ((lo <=? code c) && (code c <=? hi))%N.

(** [\d] *)
Definition is_digit (c : ascii) : bool := in_range 48 57 c.

(** [\s], for code units below 256: TAB, LF, VT, FF, CR, SP and the
    no-break space U+00A0. *)
Definition is_space (c : ascii) : bool :=
  (in_range 9 13 c || (code c =? 32) || (code c =? 160))%N.

(** [String.prototype.toLowerCase] on one code unit below 256: the ASCII
    capitals and the Latin-1 capitals U+00C0..U+00DE (without the
    multiplication sign U+00D7) move up by 32. *)
Definition lower_char (c : ascii) : ascii :=
  if in_range 65 90 c
     || (in_range 192 222 c && negb (code c =? 215)%N)
  then ascii_of_N (code c + 32)
  else c.

Fixpoint toLowerCase (s : string) : string :=
  match s with
  | EmptyString => EmptyString
  | String c s' => String (lower_char c) (toLowerCase s')
  end.

(** [Canonicalize] of a regular expression with the [i] flag and without
    the [u] flag: the upper-case form of the code unit, when that is one
    code unit and does not move a non-ASCII code unit into ASCII.  The
    result is a code unit, possibly above 255 (U+00FF maps to U+0178 and
    U+00B5 to U+039C). *)
Definition canonicalize (c : ascii) : N :=
  if in_range 97 122 c then (code c - 32)%N
  else if in_range 224 254 c && negb (code c =? 247)%N then (code c - 32)%N
  else if (code c =? 255)%N then 376%N
  else if (code c =? 181)%N then 924%N
  else code c.

(** *** [parseInt(s, 10)]

    The script passes [parseInt] only the text of a [\d{4}] or [\d{1,2}]
    group, which is never empty and holds digits only (lemmas
    [four_digits_word] and [dashRe_groups] below); [parseInt] then reads
    the longest prefix of decimal digits.  The [NaN] that it returns for a
    string without a leading digit is not represented. *)
Definition digit_val (c : ascii) : Z := Z.of_N (code c) - 48.

Fixpoint parseInt_from (acc : Z) (s : string) : Z :=
  match s with
  | EmptyString => acc
  | String c s' =>
      if is_digit c then parseInt_from (10 * acc + digit_val c) s' else acc
  end.

Definition parseInt (s : string) : Z := parseInt_from 0 s.

End Js.

(* ================================================================== *)
(** ** Regular expressions *)

Module Regex.
Import Js.

(** The fragment of the syntax used by [parseYearMonth]. *)
Inductive regex : Type :=
| Eps
| Chr (c : ascii)                 (* a literal character *)
| Class (p : ascii -> bool)       (* [\d], [\s], [[-/]] *)
| Cat (r1 r2 : regex)             (* r1r2 *)
| Alt (r1 r2 : regex)             (* r1|r2 *)
| Opt (r : regex)                 (* r?  (greedy) *)
| PlusClass (p : ascii -> bool)   (* c+  (greedy) for a class c *)
| Group (n : nat) (r : regex).    (* the n-th capturing group *)

(** A run of literal characters. *)
Fixpoint lit (s : string) : regex :=
  match s with
  | EmptyString => Eps
  | String c EmptyString => Chr c
  | String c s' => Cat (Chr c) (lit s')
  end.

(** [r{n}] *)
Fixpoint rep (n : nat) (r : regex) : regex :=
  match n with
  | O => Eps
  | S O => r
  | S n' => Cat r (rep n' r)
  end.

(** [r1|r2|...|rn], left to right. *)
Fixpoint alts (rs : list regex) : regex :=
  match rs with
  | [] => Eps
  | [r] => r
  | r :: rs' => Alt r (alts rs')
  end.

(** Captures, most recent first. *)
Definition captures : Type := list (nat * string).

Fixpoint group (n : nat) (caps : captures) : option string :=
  match caps with
  | [] => None
  | (m, s) :: caps' => if Nat.eqb m n then Some s else group n caps'
  end.

(** The text consumed between the input [s] and its suffix [s']. *)
Definition consumed (s s' : string) : string :=
  substring 0 (String.length s - String.length s') s.

Definition cont : Type := string -> captures -> option captures.

(** Zero or more characters of class [p], as many as possible first. *)
Fixpoint star_class (p : ascii -> bool) (s : string) (caps : captures)
         (k : cont) : option captures :=
  match s with
  | String c s' =>
      if p c then
        match star_class p s' caps k with
        | Some r => Some r
        | None => k s caps
        end
      else k s caps
  | EmptyString => k s caps
  end.

(** Two pattern characters are compared by code unit, or by canonical
    form under the [i] flag. *)
Definition same_char (ci : bool) (a c : ascii) : bool :=
  if ci then (canonicalize a =? canonicalize c)%N else (code a =? code c)%N.

(** The backtracking matcher of ECMAScript, in continuation-passing
    style: [rmatch ci r s caps k] matches [r] at the start of [s] and
    hands the rest of the input to [k]; when [k] fails the next
    alternative is tried.  [ci] is the [i] flag. *)
Fixpoint rmatch (ci : bool) (r : regex) (s : string) (caps : captures)
         (k : cont) {struct r} : option captures :=
  match r with
  | Eps => k s caps
  | Chr a =>
      match s with
      | String c s' =>
          if same_char ci a c then k s' caps else None
      | EmptyString => None
      end
  | Class p =>
      match s with
      | String c s' => if p c then k s' caps else None
      | EmptyString => None
      end
  | Cat r1 r2 =>
      rmatch ci r1 s caps (fun s' caps' => rmatch ci r2 s' caps' k)
  | Alt r1 r2 =>
      match rmatch ci r1 s caps k with
      | Some res => Some res
      | None => rmatch ci r2 s caps k
      end
  | Opt r1 =>
      match rmatch ci r1 s caps k with
      | Some res => Some res
      | None => k s caps
      end
  | PlusClass p =>
      match s with
      | String c s' => if p c then star_class p s' caps k else None
      | EmptyString => None
      end
  | Group n r1 =>
      rmatch ci r1 s caps
             (fun s' caps' => k s' ((n, consumed s s') :: caps'))
  end.

(** One attempt at the start of [s]; group 0 is the whole match. *)
Definition match_here (ci : bool) (r : regex) (s : string)
  : option captures :=
  rmatch ci (Group 0 r) s [] (fun _ caps => Some caps).

(** [s.match(r)] for a regular expression without the [g] flag: the
    match at the leftmost position that has one, or [None] for [null]. *)
Fixpoint exec (ci : bool) (r : regex) (s : string) : option captures :=
  match match_here ci r s with
  | Some caps => Some caps
  | None =>
      match s with
      | String _ s' => exec ci r s'
      | EmptyString => None
      end
  end.

(** The three expressions of [parseYearMonth]. *)

Definition digit : regex := Class is_digit.

(** [/(january|february|...|nov|dec)\s+(\d{4})/i] *)
Definition monthAlternatives : list string :=
  [ "january"; "february"; "march"; "april"; "may"; "june"; "july";
    "august"; "september"; "october"; "november"; "december";
    "jan"; "feb"; "mar"; "apr"; "may"; "jun"; "jul"; "aug"; "sep";
    "oct"; "nov"; "dec" ].

Definition monthYearRe : regex :=
  Cat (Group 1 (alts (map lit monthAlternatives)))
      (Cat (PlusClass is_space) (Group 2 (rep 4 digit))).

(** [/(\d{4})[-/](\d{1,2})/] *)
Definition is_dash_or_slash (c : ascii) : bool :=
  ((code c =? 45) || (code c =? 47))%N.

Definition dashRe : regex :=
  Cat (Group 1 (rep 4 digit))
      (Cat (Class is_dash_or_slash) (Group 2 (Cat digit (Opt digit)))).

(** [/(\d{4})/] *)
Definition yearRe : regex := Group 1 (rep 4 digit).

(** The characters with which a month name can start, up to case, and the
    characters of a numeric date. *)
Definition month_initial (c : ascii) : bool :=
  existsb (fun a => same_char true a c)
          ["j"; "f"; "m"; "a"; "s"; "o"; "n"; "d"]%char.

Definition numeric_char (c : ascii) : bool :=
  is_digit c || is_dash_or_slash c.

(** Expressions without a capturing group. *)
Fixpoint no_group (r : regex) : bool :=
  match r with
  | Group _ _ => false
  | Cat r1 r2 | Alt r1 r2 => no_group r1 && no_group r2
  | Opt r1 => no_group r1
  | Eps | Chr _ | Class _ | PlusClass _ => true
  end.

(** Does [r] hold the capturing group [n]? *)
Fixpoint has_group (n : nat) (r : regex) : bool :=
  match r with
  | Group m r1 => Nat.eqb m n || has_group n r1
  | Cat r1 r2 | Alt r1 r2 => has_group n r1 || has_group n r2
  | Opt r1 => has_group n r1
  | Eps | Chr _ | Class _ | PlusClass _ => false
  end.

(** *** What a match is

    [matches ci r w caps caps'] : the expression [r] matches exactly the
    word [w], and extends the captures [caps] to [caps'].  This is the
    declarative reading of the syntax; [rmatch] is sound for it (lemma
    [rmatch_sound]). *)

Fixpoint all_in (p : ascii -> bool) (w : string) : bool :=
  match w with
  | EmptyString => true
  | String c w' => p c && all_in p w'
  end.

Inductive matches (ci : bool)
  : regex -> string -> captures -> captures -> Prop :=
| M_Eps caps :
    matches ci Eps "" caps caps
| M_Chr a c caps :
    same_char ci a c = true ->
    matches ci (Chr a) (String c "") caps caps
| M_Class (p : ascii -> bool) c caps :
    p c = true ->
    matches ci (Class p) (String c "") caps caps
| M_Cat r1 r2 w1 w2 caps caps1 caps2 :
    matches ci r1 w1 caps caps1 ->
    matches ci r2 w2 caps1 caps2 ->
    matches ci (Cat r1 r2) (w1 ++ w2) caps caps2
| M_AltL r1 r2 w caps caps1 :
    matches ci r1 w caps caps1 ->
    matches ci (Alt r1 r2) w caps caps1
| M_AltR r1 r2 w caps caps1 :
    matches ci r2 w caps caps1 ->
    matches ci (Alt r1 r2) w caps caps1
| M_OptSome r w caps caps1 :
    matches ci r w caps caps1 ->
    matches ci (Opt r) w caps caps1
| M_OptNone r caps :
    matches ci (Opt r) "" caps caps
| M_Plus (p : ascii -> bool) c w caps :
    p c = true ->
    all_in p w = true ->
    matches ci (PlusClass p) (String c w) caps caps
| M_Group n r w caps caps1 :
    matches ci r w caps caps1 ->
    matches ci (Group n r) w caps ((n, w) :: caps1).

End Regex.

(* ================================================================== *)
(** ** The date parser *)

Module DateParser.
Import Js Regex.

(** The object returned by [parseYearMonth]. *)
Record YearMonth : Type := mkYearMonth {
  year : Z;
  month : Z;
  sortKey : Z
}.

(** The [monthNames] table. *)
Definition monthNames : list (string * Z) :=
  [ ("january", 1); ("jan", 1);
    ("february", 2); ("feb", 2);
    ("march", 3); ("mar", 3);
    ("april", 4); ("apr", 4);
    ("may", 5);
    ("june", 6); ("jun", 6);
    ("july", 7); ("jul", 7);
    ("august", 8); ("aug", 8);
    ("september", 9); ("sep", 9);
    ("october", 10); ("oct", 10);
    ("november", 11); ("nov", 11);
    ("december", 12); ("dec", 12) ].

Fixpoint lookup (key : string) (table : list (string * Z)) : option Z :=
  match table with
  | [] => None
  | (k, v) :: table' =>
      if String.eqb k key then Some v else lookup key table'
  end.

(** [monthNames[name.toLowerCase()] || 1] *)
Definition monthNumber (name : string) : Z :=
  match lookup (toLowerCase name) monthNames with
  | Some v => if v =? 0 then 1 else v
  | None => 1
  end.

(** The text of group [n] of a successful match. *)
Definition text (n : nat) (m : captures) : string :=
  match group n m with
  | Some s => s
  | None => ""
  end.

Definition unknown : YearMonth :=
  {| year := 2000; month := 1; sortKey := 0 |}.

Definition fromMonthYear (m : captures) : YearMonth :=
  let month := monthNumber (text 1 m) in
  let year := parseInt (text 2 m) in
  {| year := year; month := month; sortKey := year * 100 + month |}.

Definition fromDash (m : captures) : YearMonth :=
  let year := parseInt (text 1 m) in
  let month := parseInt (text 2 m) in
  {| year := year; month := month; sortKey := year * 100 + month |}.

Definition fromYear (m : captures) : YearMonth :=
  let year := parseInt (text 1 m) in
  {| year := year; month := 1; sortKey := year * 100 |}.

(** The body of [parseYearMonth] after the guard, on the lower-cased
    string. *)
Definition parseLowered (dateStr : string) : YearMonth :=
  match exec true monthYearRe dateStr with
  | Some m => fromMonthYear m
  | None =>
      match exec false dashRe dateStr with
      | Some m => fromDash m
      | None =>
          match exec false yearRe dateStr with
          | Some m => fromYear m
          | None => unknown
          end
      end
  end.

(** [parseYearMonth(dateString)].  The argument is whatever the JSON
    document holds under [date]; a truthy value that is not a string has
    no [toLowerCase] method, and calling it throws a [TypeError]. *)
Definition parseYearMonth (dateString : jsval) : completion YearMonth :=
  if negb (truthy dateString) || strict_eq_str dateString "Unknown Date"
  then Normal unknown
  else
    match dateString with
    | JStr s => Normal (parseLowered (toLowerCase s))
    | _ => Throw "TypeError: dateString.toLowerCase is not a function"
    end.

End DateParser.


(* ================================================================== *)
(** ** Loading: normalisation and sorting *)

Module Loader.
Import Js DateParser.

(** One element of the [projects] array of [projects.json], as an object:
    the value found under each property the script reads ([JUndefined]
    when the object lacks it).  The four list-valued properties are either
    absent or falsy ([None]) or an array ([Some l]; an array is truthy even
    when empty). *)
Record RawProject : Type := mkRaw {
  raw_id : jsval;
  raw_title : jsval;
  raw_category : jsval;
  raw_type : jsval;
  raw_date : jsval;
  raw_tools : option (list jsval);
  raw_skills : option (list jsval);
  raw_description : jsval;
  raw_links : option (list jsval);
  raw_media : option (list jsval)
}.

(** An element of [projects] after normalisation. *)
Record Project : Type := mkProject {
  id : jsval;
  title : jsval;
  category : jsval;
  type : jsval;
  date : jsval;
  sortDate : YearMonth;
  tools : list jsval;
  skills : list jsval;
  description : jsval;
  links : list jsval;
  media : list jsval
}.

(** [l || []] *)
Definition or_empty (l : option (list jsval)) : list jsval :=
  match l with
  | Some l' => l'
  | None => []
  end.

(** The arrow function given to [data.projects.map]: the object literal
    evaluates its properties in order, and only [parseYearMonth] can
    throw. *)
Definition normalize (project : RawProject) (index : nat)
  : completion Project :=
  bind (parseYearMonth (raw_date project)) (fun sd =>
  Normal {|
    id := or_else (raw_id project) (JNum (Z.of_nat index + 1));
    title := or_else (raw_title project) (JStr "Untitled Project");
    category := or_else (raw_category project) (JStr "uncategorized");
    type := or_else (raw_type project) (JStr "Other");
    date := or_else (raw_date project) (JStr "Unknown Date");
    sortDate := sd;
    tools := or_empty (raw_tools project);
    skills := or_empty (raw_skills project);
    description :=
      or_else (raw_description project) (JStr "No description available.");
    links := or_empty (raw_links project);
    media := or_empty (raw_media project)
  |}).

(** [array.map((project, index) => ...)] from position [index] on; the
    first exception ends it. *)
Fixpoint map_from (index : nat) (array : list RawProject)
  : completion (list Project) :=
  match array with
  | [] => Normal []
  | project :: rest =>
      bind (normalize project index) (fun p =>
      bind (map_from (S index) rest) (fun ps =>
      Normal (p :: ps)))
  end.

(** The comparator given to [projects.sort]: negative when [a] goes
    before [b]. *)
Definition compare (a b : Project) : Z :=
  if negb (year (sortDate b) =? year (sortDate a))
  then year (sortDate b) - year (sortDate a)
  else month (sortDate b) - month (sortDate a).

(** The order on dates that the comparator implements: the first date
    is in a later year, or in the same year and not in an earlier month. *)
Definition newer_or_same (a b : YearMonth) : Prop :=
  year a > year b \/ (year a = year b /\ month a >= month b).

(** [a] may stand before [b] in the sorted array. *)
Definition before (a b : Project) : Prop := compare a b <= 0.

(** [Array.prototype.sort] is stable (ECMAScript 2019) and [compare] is a
    consistent comparator, which fixes the result: the stable sort.  It is
    computed here by insertion, each element going in front of the first
    one that it does not follow. *)
Fixpoint insert (a : Project) (sorted : list Project) : list Project :=
  match sorted with
  | [] => [a]
  | b :: rest =>
      if compare a b <=? 0 then a :: b :: rest else b :: insert a rest
  end.

Definition sort (l : list Project) : list Project :=
  fold_right insert [] l.

(** The first two statements of [loadProjects] after the validation, the
    [map] and the [sort]: from the [data.projects] array to the new value
    of [projects].  An exception, which only the [map] can throw, is what
    the [catch] block reports with [showError], leaving [projects] as it
    was.  What [loadProjects] does with the new value is in
    [Startup.loadProjects]. *)
Definition loadProjects (data_projects : list RawProject)
  : completion (list Project) :=
  bind (map_from 0 data_projects) (fun ps => Normal (sort ps)).

(** The dates that [parseYearMonth] accepts: a string, or a falsy value. *)
Definition date_ok (v : jsval) : bool :=
  match v with
  | JStr _ => true
  | _ => negb (truthy v)
  end.

(** The specification's wording of the defaults: [p] is the project at
    position [index] of the array, [raw], with every missing or falsy
    property replaced by its default and every other property kept. *)
Definition defaulted (index : nat) (raw : RawProject) (p : Project) : Prop :=
  id p = (if truthy (raw_id raw) then raw_id raw
          else JNum (Z.of_nat index + 1))
  /\ title p = (if truthy (raw_title raw) then raw_title raw
                else JStr "Untitled Project")
  /\ category p = (if truthy (raw_category raw) then raw_category raw
                   else JStr "uncategorized")
  /\ type p = (if truthy (raw_type raw) then raw_type raw
               else JStr "Other")
  /\ date p = (if truthy (raw_date raw) then raw_date raw
               else JStr "Unknown Date")
  /\ description p = (if truthy (raw_description raw)
                      then raw_description raw
                      else JStr "No description available.")
  /\ tools p = match raw_tools raw with Some l => l | None => [] end
  /\ skills p = match raw_skills raw with Some l => l | None => [] end
  /\ links p = match raw_links raw with Some l => l | None => [] end
  /\ media p = match raw_media raw with Some l => l | None => [] end.

(** Sample documents. *)
Definition raw_dated (d : jsval) : RawProject :=
  {| raw_id := JUndefined; raw_title := JUndefined;
     raw_category := JUndefined; raw_type := JUndefined;
     raw_date := d;
     raw_tools := None; raw_skills := None;
     raw_description := JUndefined;
     raw_links := None; raw_media := None |}.

End Loader.

(* ================================================================== *)
(** ** The state of the page and filtering *)

Module Filter.
Import Js Loader.

(** The variables declared at the top of the script. *)
Record State : Type := mkState {
  projects : list Project;
  filteredProjects : list Project;
  currentCategory : string;
  currentType : string;
  currentProject : option Project;
  currentMediaIndex : Z
}.

Definition initial : State :=
  {| projects := [];
     filteredProjects := [];
     currentCategory := "all";
     currentType := "all";
     currentProject := None;
     currentMediaIndex := 0 |}.

(** [filterProjects()] (the rendering that follows does not touch the
    state). *)
Definition filterProjects (st : State) : State :=
  let filtered := projects st in
  let filtered :=
    if negb (String.eqb (currentCategory st) "all")
    then filter (fun p => strict_eq_str (category p) (currentCategory st))
                filtered
    else filtered in
  let filtered :=
    if negb (String.eqb (currentType st) "all")
    then filter (fun p => strict_eq_str (type p) (currentType st)) filtered
    else filtered in
  {| projects := projects st;
     filteredProjects := filtered;
     currentCategory := currentCategory st;
     currentType := currentType st;
     currentProject := currentProject st;
     currentMediaIndex := currentMediaIndex st |}.

(** The click handlers of the category and type buttons, and
    [clearFilters]: each sets the filter state and calls
    [filterProjects]. *)
Definition with_filters (c t : string) (st : State) : State :=
  {| projects := projects st;
     filteredProjects := filteredProjects st;
     currentCategory := c;
     currentType := t;
     currentProject := currentProject st;
     currentMediaIndex := currentMediaIndex st |}.

Definition setCategory (c : string) (st : State) : State :=
  filterProjects (with_filters c (currentType st) st).

Definition setType (t : string) (st : State) : State :=
  filterProjects (with_filters (currentCategory st) t st).

Definition clearFilters (st : State) : State :=
  filterProjects (with_filters "all" "all" st).

(** The filter as the specification words it: a project is kept when the
    category is "all" or is the project's, and the type is "all" or is the
    project's. *)
Definition selected (cat ty : string) (p : Project) : bool :=
  (String.eqb cat "all" || strict_eq_str (category p) cat)
  && (String.eqb ty "all" || strict_eq_str (type p) ty).

(** [l1] is [l2] with some elements left out, the others in their order. *)
Inductive subsequence : list Project -> list Project -> Prop :=
| sub_nil : subsequence [] []
| sub_keep p l1 l2 : subsequence l1 l2 -> subsequence (p :: l1) (p :: l2)
| sub_drop p l1 l2 : subsequence l1 l2 -> subsequence l1 (p :: l2).

(** A sample project and a sample state. *)
Definition sample_project (cat ty : string) (m : list jsval) : Project :=
  {| id := JNum 1; title := JStr "t"; category := JStr cat;
     type := JStr ty; date := JStr "2024";
     sortDate := {| DateParser.year := 2024; DateParser.month := 1;
                    DateParser.sortKey := 202400 |};
     tools := []; skills := []; description := JStr "d";
     links := []; media := m |}.

Definition sample_state : State :=
  {| projects := [ sample_project "video" "Short" [];
                   sample_project "graphic" "Poster" [JNull];
                   sample_project "video" "Long" [JNull; JNull] ];
     filteredProjects := [];
     currentCategory := "video";
     currentType := "all";
     currentProject := None;
     currentMediaIndex := 0 |}.

End Filter.

(* ================================================================== *)
(** ** The modal and its media index *)

Module Modal.
Import Js Loader Filter.

Definition with_modal (cp : option Project) (i : Z) (st : State) : State :=
  {| projects := projects st;
     filteredProjects := filteredProjects st;
     currentCategory := currentCategory st;
     currentType := currentType st;
     currentProject := cp;
     currentMediaIndex := i |}.

Definition openProjectModal (project : Project) (st : State) : State :=
  with_modal (Some project) 0 st.

(** [media.length] *)
Definition media_length (p : Project) : Z :=
  Z.of_nat (List.length (media p)).

Definition nextMedia (st : State) : State :=
  match currentProject st with
  | Some p =>
      if currentMediaIndex st <? media_length p - 1
      then with_modal (Some p) (currentMediaIndex st + 1) st
      else st
  | None => st
  end.

Definition prevMedia (st : State) : State :=
  if 0 <? currentMediaIndex st
  then with_modal (currentProject st) (currentMediaIndex st - 1) st
  else st.

Definition closeModal (st : State) : State := with_modal None 0 st.

(** What [updateModal] writes into the [currentMedia] counter. *)
Definition currentMediaText (st : State) : option Z :=
  match currentProject st with
  | Some p =>
      Some (if 0 <? media_length p then currentMediaIndex st + 1 else 0)
  | None => None
  end.

(** The user actions that reach those four functions. *)
Inductive action : Type :=
| Open (project : Project)
| Next
| Prev
| Close.

Definition perform (a : action) (st : State) : State :=
  match a with
  | Open p => openProjectModal p st
  | Next => nextMedia st
  | Prev => prevMedia st
  | Close => closeModal st
  end.

Definition run (acts : list action) (st : State) : State :=
  fold_left (fun s a => perform a s) acts st.

(** The invariant as the specification words it: with a project open,
    the index lies in [0, media.length - 1]. *)
Definition index_in_media (st : State) : Prop :=
  match currentProject st with
  | Some p =>
      0 <= currentMediaIndex st /\ currentMediaIndex st <= media_length p - 1
  | None => True
  end.

(** The invariant that the code keeps: with a project open, the index
    lies in [0, media.length - 1] when the project has media, and is 0
    when it has none. *)
Definition media_index_ok (st : State) : Prop :=
  match currentProject st with
  | Some p =>
      0 <= currentMediaIndex st
      /\ (currentMediaIndex st <= media_length p - 1
          \/ (media p = [] /\ currentMediaIndex st = 0))
  | None => True
  end.

End Modal.

(* ================================================================== *)
(** ** Lazy loading of thumbnails *)

Module LazyLoad.
Import Js.

Inductive tagName : Type := IMG | DIV | IFRAME.

Definition tag_eqb (a b : tagName) : bool :=
  match a, b with
  | IMG, IMG | DIV, DIV | IFRAME, IFRAME => true
  | _, _ => false
  end.

(** What the lazy loader reads and writes of a DOM element: its tag, its
    classes, the [data-src] and [data-thumb-id] attributes ([dataset.src],
    [dataset.thumbId]; [None] when the attribute is absent) and [src]. *)
Record Element : Type := mkElement {
  tag : tagName;
  classList : list string;
  data_src : option string;
  data_thumb_id : option string;
  src : string
}.

(** The result of [getBoundingClientRect()], and the two sizes of the
    window that [isInViewport] reads.  Only comparisons are made on these
    numbers. *)
Record DOMRect : Type := mkRect {
  top : Z;
  left : Z;
  bottom : Z;
  right : Z
}.

Record Viewport : Type := mkViewport {
  innerHeight : Z;
  innerWidth : Z;
  clientHeight : Z;
  clientWidth : Z
}.

(** [window.innerHeight || document.documentElement.clientHeight] and the
    same for the width. *)
Definition viewportHeight (v : Viewport) : Z :=
  if innerHeight v =? 0 then clientHeight v else innerHeight v.

Definition viewportWidth (v : Viewport) : Z :=
  if innerWidth v =? 0 then clientWidth v else innerWidth v.

Definition isInViewport (v : Viewport) (rect : DOMRect) : bool :=
  (0 <=? top rect) && (0 <=? left rect)
  && (bottom rect <=? viewportHeight v)
  && (right rect <=? viewportWidth v).

(** The specification's wording: the bounding box and the viewport, the
    rectangle from (0,0) to (width,height), have a point in common. *)
Definition intersects_viewport (v : Viewport) (rect : DOMRect) : bool :=
  (top rect <=? viewportHeight v) && (0 <=? bottom rect)
  && (left rect <=? viewportWidth v) && (0 <=? right rect)
  && (top rect <=? bottom rect) && (left rect <=? right rect).

Definition has_class (c : string) (e : Element) : bool :=
  existsb (String.eqb c) (classList e).

(** [img.lazy-image] *)
Definition is_lazy_image (e : Element) : bool :=
  tag_eqb (tag e) IMG && has_class "lazy-image" e.

(** [.thumbnail-placeholder, .iframe-placeholder] *)
Definition is_placeholder (e : Element) : bool :=
  has_class "thumbnail-placeholder" e || has_class "iframe-placeholder" e.

(** [[data-src]] *)
Definition has_data_src (e : Element) : bool :=
  match data_src e with
  | Some _ => true
  | None => false
  end.

(** [loadImage(img)] *)
Definition loadImage (img : Element) : Element :=
  match data_src img with
  | None => img
  | Some s =>
      if String.eqb s "" then img
      else {| tag := tag img;
              classList :=
                filter (fun c => negb (String.eqb c "lazy-image"))
                       (classList img);
              data_src := None;
              data_thumb_id := data_thumb_id img;
              src := s |}
  end.

(** [loadIframe(placeholder)]: the new [iframe] takes the place of the
    placeholder in its parent. *)
Definition loadIframe (placeholder : Element) : Element :=
  match data_src placeholder with
  | None => placeholder
  | Some s =>
      if String.eqb s "" then placeholder
      else {| tag := IFRAME;
              classList := [];
              data_src := None;
              data_thumb_id := None;
              src := s |}
  end.

(** The document is the sequence of its elements in document order.  The
    geometry comes from the browser: [layout i] is the bounding rectangle
    of the element at position [i] while one handler runs (the handler is
    assumed not to move the other elements while it runs). *)
Definition Document : Type := list Element.
Definition Layout : Type := nat -> DOMRect.

(** [nodes.forEach(f)] over the static list that [querySelectorAll]
    returned: [nodes] marks the positions that the selector matched when
    it ran, and [f] works on the element as it is now. *)
Fixpoint forEach_from (i : nat) (nodes : list bool)
         (f : nat -> Element -> Element) (doc : Document) : Document :=
  match doc, nodes with
  | e :: doc', b :: nodes' =>
      (if b then f i e else e) :: forEach_from (S i) nodes' f doc'
  | _, _ => doc
  end.

Definition forEach := forEach_from 0.

Definition loadIfVisible (load : Element -> Element) (v : Viewport)
           (layout : Layout) (i : nat) (e : Element) : Element :=
  if isInViewport v (layout i) then load e else e.

Record Page : Type := mkPage {
  dom : Document;
  scrollListener : bool     (* is [lazyLoadHandler] listening to scroll? *)
}.

(** [initLazyLoading()] *)
Definition initLazyLoading (v : Viewport) (layout : Layout) (pg : Page)
  : Page :=
  let lazyImages := map is_lazy_image (dom pg) in
  let lazyIframes := map is_placeholder (dom pg) in
  let doc := forEach lazyImages (loadIfVisible loadImage v layout) (dom pg) in
  let doc := forEach lazyIframes (loadIfVisible loadIframe v layout) doc in
  {| dom := doc;
     scrollListener :=
       if existsb (fun b => b) lazyImages || existsb (fun b => b) lazyIframes
       then true else scrollListener pg |}.

(** [lazyLoadHandler()] *)
Definition lazyLoadHandler (v : Viewport) (layout : Layout) (doc : Document)
  : Document :=
  let lazyImages := map (fun e => is_lazy_image e && has_data_src e) doc in
  let lazyIframes := map (fun e => is_placeholder e && has_data_src e) doc in
  let doc := forEach lazyImages (loadIfVisible loadImage v layout) doc in
  forEach lazyIframes (loadIfVisible loadIframe v layout) doc.

(** A scroll event reaches [lazyLoadHandler] when it has been added as a
    listener. *)
Definition onScroll (v : Viewport) (layout : Layout) (pg : Page) : Page :=
  if scrollListener pg
  then {| dom := lazyLoadHandler v layout (dom pg);
          scrollListener := true |}
  else pg.

(** [filteredProjects.forEach(...)] of [renderProjects]: [built] holds,
    for each project of [filteredProjects] in order, the lazy elements of
    the card that [createProjectElement] builds for it, or the exception
    that it throws.  The cards built before the first exception have been
    appended to the container; the exception ends the loop. *)
Fixpoint appendCards (built : list (completion Document))
  : Document * completion unit :=
  match built with
  | [] => ([], Normal tt)
  | Normal card :: rest =>
      let (cards, r) := appendCards rest in ((card ++ cards)%list, r)
  | Throw e :: _ => ([], Throw e)
  end.

(** [renderProjects()]: the page that it leaves, and how it ends.  With
    no project to show it calls [showEmptyState], whose panel has no lazy
    element ([emptyState] tells whether that call throws, which it does
    before it writes), and returns.  Otherwise the container is emptied
    and gets the cards; [initLazyLoading] runs, and can add the scroll
    listener, only when every card has been built. *)
Definition renderProjects (emptyState : completion unit)
           (built : list (completion Document)) (v : Viewport)
           (layout : Layout) (pg : Page) : Page * completion unit :=
  match built with
  | [] =>
      match emptyState with
      | Normal _ =>
          ({| dom := []; scrollListener := scrollListener pg |}, Normal tt)
      | Throw e => (pg, Throw e)
      end
  | _ :: _ =>
      let (cards, r) := appendCards built in
      let pg1 := {| dom := cards; scrollListener := scrollListener pg |} in
      match r with
      | Normal _ => (initLazyLoading v layout pg1, Normal tt)
      | Throw e => (pg1, Throw e)
      end
  end.

(** [showLoading()] and [showError(message)]: the container gets a panel
    without lazy elements. *)
Definition showPanel (pg : Page) : Page :=
  {| dom := []; scrollListener := scrollListener pg |}.

Definition start : Page := {| dom := []; scrollListener := false |}.

(** The pages that the script can produce from [pg]: by renders, which
    may end in an exception, by panels and by scroll events. *)
Inductive later (pg : Page) : Page -> Prop :=
| later_now : later pg pg
| later_render emptyState built v layout pg' :
    later pg pg' ->
    later pg (fst (renderProjects emptyState built v layout pg'))
| later_panel pg' :
    later pg pg' -> later pg (showPanel pg')
| later_scroll v layout pg' :
    later pg pg' -> later pg (onScroll v layout pg').

(** One step of the lazy loader on the document as it stands: a scroll
    event, or another pass of [initLazyLoading]. *)
Inductive step : Page -> Page -> Prop :=
| step_scroll v layout pg : step pg (onScroll v layout pg)
| step_check v layout pg : step pg (initLazyLoading v layout pg).

Inductive steps : Page -> Page -> Prop :=
| steps_refl pg : steps pg pg
| steps_next pg1 pg2 pg3 : step pg1 pg2 -> steps pg2 pg3 -> steps pg1 pg3.

(** An element still waiting for activation: a lazy image or a
    placeholder whose [data-src] holds a URL. *)
Definition waiting (e : Element) : bool :=
  (is_lazy_image e || is_placeholder e)
  && match data_src e with
     | Some s => negb (String.eqb s "")
     | None => false
     end.

(** An activated element: an image whose [src] holds the URL, or the
    [iframe] built for a placeholder; neither has a [data-src]. *)
Definition activated_from (e e' : Element) : Prop :=
  data_src e' = None
  /\ Some (src e') = data_src e
  /\ (if is_lazy_image e
      then tag e' = IMG /\ has_class "lazy-image" e' = false
      else tag e' = IFRAME).

(** What [initLazyLoading] and [lazyLoadHandler] do to one element, given
    its rectangle. *)
Definition init_element (v : Viewport) (rect : DOMRect) (e : Element)
  : Element :=
  let e1 := if is_lazy_image e && isInViewport v rect
            then loadImage e else e in
  if is_placeholder e && isInViewport v rect then loadIframe e1 else e1.

Definition handler_element (v : Viewport) (rect : DOMRect) (e : Element)
  : Element :=
  let e1 := if is_lazy_image e && has_data_src e && isInViewport v rect
            then loadImage e else e in
  if is_placeholder e && has_data_src e && isInViewport v rect
  then loadIframe e1 else e1.

(** The scroll listener is there as soon as the document holds a lazy
    image or a placeholder. *)
Definition listening (pg : Page) : Prop :=
  forall e, In e (dom pg) ->
            is_lazy_image e || is_placeholder e = true ->
            scrollListener pg = true.

(** Sample elements and geometry: a window of 1200 by 800, a rectangle
    inside it and one that sticks out at the top. *)
Definition lazy_img (url : string) : Element :=
  {| tag := IMG; classList := ["lazy-image"]; data_src := Some url;
     data_thumb_id := None; src := "" |}.

Definition placeholder (url : string) : Element :=
  {| tag := DIV; classList := ["iframe-placeholder"]; data_src := Some url;
     data_thumb_id := Some "thumb-1-0"; src := "" |}.

Definition window1200x800 : Viewport :=
  {| innerHeight := 800; innerWidth := 1200;
     clientHeight := 800; clientWidth := 1200 |}.

Definition rect_inside : DOMRect :=
  {| top := 10; left := 10; bottom := 210; right := 310 |}.

Definition rect_half_scrolled : DOMRect :=
  {| top := -100; left := 10; bottom := 100; right := 310 |}.

End LazyLoad.


(* ================================================================== *)
(** ** Strings: [includes] *)

Module Text.

(** [s.startsWith(prefix)] *)
Fixpoint startsWith (s prefix : string) {struct prefix} : bool :=
  match prefix, s with
  | EmptyString, _ => true
  | String a prefix', String c s' => Ascii.eqb a c && startsWith s' prefix'
  | String _ _, EmptyString => false
  end.

(** [s.includes(needle)]: [needle] occurs somewhere in [s]. *)
Fixpoint includes (s needle : string) : bool :=
  startsWith s needle
  || match s with
     | String _ s' => includes s' needle
     | EmptyString => false
     end.

End Text.

(* ================================================================== *)
(** ** The media frame of the modal *)

Module Embed.
Import Js Regex Text.

(** [v.name] for a value of the JSON document and one of the property
    names that the script reads from media items ([type], [thumbnail],
    [embed]) and from links ([url], [text]), none of which a prototype
    defines: reading a property of
    [null] or [undefined] throws, an object gives what it holds (the keys
    of an object are distinct), and every other value gives [undefined]. *)
Fixpoint field (name : string) (fields : list (string * jsval)) : jsval :=
  match fields with
  | [] => JUndefined
  | (k, v) :: fields' => if String.eqb k name then v else field name fields'
  end.

Definition get (name : string) (v : jsval) : completion jsval :=
  match v with
  | JUndefined | JNull =>
      Throw "TypeError: cannot read properties of null or undefined"
  | JObj fields => Normal (field name fields)
  | JBool _ | JNum _ | JStr _ | JArr _ => Normal JUndefined
  end.

(** The two quote characters, U+0027 and U+0022. *)
Definition is_quote (c : ascii) : bool :=
  ((code c =? 39) || (code c =? 34))%N.

Definition not_quote (c : ascii) : bool := negb (is_quote c).

(** The expression [/src=Q([^Q]+)Q/] of [createMediaElement], where [Q]
    stands for the class of the two quote characters. *)
Definition srcRe : regex :=
  Cat (lit "src=")
      (Cat (Class is_quote)
           (Cat (Group 1 (PlusClass not_quote)) (Class is_quote))).

(** [srcMatch ? srcMatch[1] : ''] *)
Definition embedSrc (embed : string) : string :=
  match exec false srcRe embed with
  | Some m =>
      match group 1 m with
      | Some s => s
      | None => ""
      end
  | None => ""
  end.

(** [src += (src.includes('?') ? '&' : '?') + param] *)
Definition addParam (src param : string) : string :=
  (src ++ (if includes src "?" then "&" else "?") ++ param)%string.

(** The adjustments that [createMediaElement] makes to [src]; [now] is
    the text of [Date.now()]. *)
Definition withoutAutoplay (src : string) : string :=
  if negb (includes src "autoplay=") then addParam src "autoplay=0" else src.

Definition mediaSrc (now src : string) : string :=
  if includes src "youtube.com" || includes src "youtu.be"
  then withoutAutoplay src
  else if includes src "drive.google.com"
  then
    let src := withoutAutoplay src in
    if negb (includes src "cachePrevent")
    then addParam src ("cachePrevent=" ++ now)
    else src
  else src.

(** What [createMediaElement] puts into its markup: the [src] of the
    frame, the aspect ratio of the wrapper and the number in the title. *)
Record MediaFrame : Type := mkFrame {
  frame_src : string;
  aspectRatio : string;
  mediaNumber : Z
}.

(** [createMediaElement(media, title)], with [currentMediaIndex]. *)
Definition createMediaElement (now : string) (currentMediaIndex : Z)
           (media : jsval) : completion MediaFrame :=
  bind (get "embed" media) (fun e =>
  bind (get "type" media) (fun ty =>
  match or_else e (JStr "") with
  | JStr embed =>
      Normal {| frame_src := mediaSrc now (embedSrc embed);
                aspectRatio :=
                  if strict_eq_str ty "video" then "16-9" else "4-3";
                mediaNumber := currentMediaIndex + 1 |}
  | _ => Throw "TypeError: embed.match is not a function"
  end)).

End Embed.

(* ================================================================== *)
(** ** What the modal shows *)

Module ModalView.
Import Js Loader Filter Modal Embed.

(** [media[currentMediaIndex]]: [undefined] outside the array. *)
Definition item (l : list jsval) (i : Z) : jsval :=
  if i <? 0 then JUndefined else nth (Z.to_nat i) l JUndefined.

(** The content of [mediaContainer]. *)
Inductive Container : Type :=
| Frame (f : MediaFrame)
| NoMedia.

(** What [updateModal] writes about the media: the container, the
    [disabled] flags of the two navigation buttons and the texts of
    [currentMedia] and [totalMedia]. *)
Record View : Type := mkView {
  container : Container;
  prevDisabled : bool;
  nextDisabled : bool;
  currentText : Z;
  totalText : Z
}.

(** The first part of [updateModal()], to the navigation: nothing is
    written without a current project; [createMediaElement] may throw
    before the rest is written. *)
Definition updateModalMedia (now : string) (st : State)
  : completion (option View) :=
  match currentProject st with
  | None => Normal None
  | Some project =>
      let media := media project in
      let currentMedia := item media (currentMediaIndex st) in
      bind (if truthy currentMedia then get "embed" currentMedia
            else Normal currentMedia) (fun embed =>
      bind (if truthy embed
            then bind (createMediaElement now (currentMediaIndex st)
                                          currentMedia)
                      (fun f => Normal (Frame f))
            else Normal NoMedia) (fun c =>
      Normal (Some
        {| container := c;
           prevDisabled := currentMediaIndex st =? 0;
           nextDisabled := currentMediaIndex st =? media_length project - 1;
           currentText :=
             if 0 <? media_length project
             then currentMediaIndex st + 1 else 0;
           totalText := media_length project |})))
  end.








End ModalView.

(* ================================================================== *)
(** ** Sequences of filter clicks *)

Module FilterClicks.
Import Js Loader Filter.

(** A click on a category button, on a type button, or on the button
    that [showEmptyState] wires to [clearFilters]. *)
Inductive click : Type :=
| Category (c : string)
| Type_ (t : string)
| Clear.

Definition handle (k : click) (st : State) : State :=
  match k with
  | Category c => setCategory c st
  | Type_ t => setType t st
  | Clear => clearFilters st
  end.

Definition handleAll (ks : list click) (st : State) : State :=
  fold_left (fun s k => handle k s) ks st.

(** The category and the type that a sequence of clicks leaves
    selected. *)
Definition categoryAfter (ks : list click) (c0 : string) : string :=
  fold_left (fun c k => match k with
                        | Category c' => c'
                        | Type_ _ => c
                        | Clear => "all"
                        end) ks c0.

Definition typeAfter (ks : list click) (t0 : string) : string :=
  fold_left (fun t k => match k with
                        | Category _ => t
                        | Type_ t' => t'
                        | Clear => "all"
                        end) ks t0.

End FilterClicks.

(* ================================================================== *)
(** ** Category counts *)

Module Counts.
Import Js Loader Filter.

(** The numbers stored in [categoryCounts]. *)
Inductive number : Type :=
| Num (n : Z)
| NaN.

(** What [categoryCounts[key]] evaluates to: a number of the object's
    own, a function or object found on [Object.prototype], or
    [undefined]. *)
Inductive value : Type :=
| VNumber (x : number)
| VInherited
| VUndefined.

(** The property names of [Object.prototype], which every object
    literal inherits. *)
Definition objectPrototype : list string :=
  [ "constructor"; "hasOwnProperty"; "isPrototypeOf";
    "propertyIsEnumerable"; "toLocaleString"; "toString"; "valueOf";
    "__proto__"; "__defineGetter__"; "__defineSetter__";
    "__lookupGetter__"; "__lookupSetter__" ].

Definition inherited (key : string) : bool :=
  existsb (String.eqb key) objectPrototype.

(** The own properties of the object, the latest assignment first. *)
Definition object : Type := list (string * number).

Fixpoint own (key : string) (o : object) : option number :=
  match o with
  | [] => None
  | (k, x) :: o' => if String.eqb k key then Some x else own key o'
  end.

(** [o[key]] *)
Definition get (o : object) (key : string) : value :=
  match own key o with
  | Some x => VNumber x
  | None => if inherited key then VInherited else VUndefined
  end.

(** [o[key] = x]: an assignment of a number to [__proto__] is ignored,
    any other key becomes or stays a property of the object's own. *)
Definition put (o : object) (key : string) (x : number) : object :=
  if String.eqb key "__proto__" then o else (key, x) :: o.

Definition truthy (v : value) : bool :=
  match v with
  | VNumber (Num n) => negb (n =? 0)
  | VNumber NaN => false
  | VInherited => true
  | VUndefined => false
  end.

(** [ToNumber(v) + 1] *)
Definition succ (v : value) : number :=
  match v with
  | VNumber (Num n) => Num (n + 1)
  | VNumber NaN | VInherited | VUndefined => NaN
  end.

Section Keys.

(** [ToPropertyKey], the conversion of [project.category] to the name of
    a property; on a string it is the string itself. *)
Variable toKey : jsval -> string.

(** The body of the [forEach] of [calculateCategoryCounts]. *)
Definition countProject (o : object) (project : Project) : object :=
  let category := toKey (category project) in
  if truthy (get o category)
  then put o category (succ (get o category))
  else put o category (Num 1).

(** [calculateCategoryCounts()] *)
Definition calculateCategoryCounts (projects : list Project) : object :=
  fold_left countProject projects
            [("all", Num (Z.of_nat (List.length projects)))].

(** The number of projects filed under [key]. *)
Definition filed (key : string) (projects : list Project) : Z :=
  Z.of_nat (List.length
              (filter (fun p => String.eqb (toKey (category p)) key)
                      projects)).

End Keys.

(** [categoryCounts[category] || 0], the count that
    [updateFilterButtonsWithCounts] and [showEmptyState] use. *)
Definition countOf (o : object) (category : string) : value :=
  if truthy (get o category) then get o category else VNumber (Num 0).

(** How the own property of an ordinary key holds a count: no property
    for 0, the number otherwise. *)
Definition encoded (n : Z) : option number :=
  if n =? 0 then None else Some (Num n).

(** A conversion to keys that is right on strings, for examples. *)
Definition stringKey (v : jsval) : string :=
  match v with
  | JStr s => s
  | _ => ""
  end.

End Counts.

(* ================================================================== *)
(** ** Thumbnails: the image cache and the cards *)

Module Thumbnails.
Import Js Regex Text Embed Loader.

(** The line terminators among the code units below 256, which the dot
    of a regular expression does not match. *)
Definition is_line_terminator (c : ascii) : bool :=
  ((code c =? 10) || (code c =? 13))%N.

(** The image test of [preCacheThumbnails] and [createThumbnailContent]:
    a dot and one of the extensions jpg, jpeg, png, gif, webp, under the
    [i] flag, followed by the end of the expression: an optional group of
    a question mark and any characters, then the end of the input. *)
Definition imageExtension : regex :=
  Cat (Chr ".")
      (Group 1 (alts (map lit ["jpg"; "jpeg"; "png"; "gif"; "webp"]))).

(** The end of the expression accepts the rest of the input when it is
    empty, or a question mark followed by characters other than line
    terminators. *)
Definition queryToEnd (rest : string) : bool :=
  match rest with
  | EmptyString => true
  | String c query =>
      (code c =? 63)%N
      && all_in (fun c => negb (is_line_terminator c)) query
  end.

(** Is there a match of [r], continued by [k], at some position of [s]? *)
Fixpoint testFrom (ci : bool) (r : regex) (k : cont) (s : string) : bool :=
  match rmatch ci r s [] k with
  | Some _ => true
  | None =>
      match s with
      | String _ s' => testFrom ci r k s'
      | EmptyString => false
      end
  end.

Definition isImageUrl (url : string) : bool :=
  testFrom true imageExtension
           (fun rest caps => if queryToEnd rest then Some caps else None)
           url.

(** [t.includes(needle)] for a truthy value [t] of the document: a string
    searches for a substring, an array for an element, and no other value
    has the method. *)
Definition includesOf (t : jsval) (needle : string) : completion bool :=
  match t with
  | JStr s => Normal (includes s needle)
  | JArr l => Normal (existsb (fun v => strict_eq_str v needle) l)
  | _ => Throw "TypeError: includes is not a function"
  end.

(** [t.match(image expression)]: only a string has the method. *)
Definition matchesImage (t : jsval) : completion bool :=
  match t with
  | JStr s => Normal (isImageUrl s)
  | _ => Throw "TypeError: match is not a function"
  end.

(** The keys of [imageCache], the latest first. *)
Definition Cache : Type := list string.

Definition has (cache : Cache) (url : string) : bool :=
  existsb (String.eqb url) cache.

(** The body of the inner [forEach] of [preCacheThumbnails]. *)
Definition cacheMedia (cache : Cache) (media : jsval) : completion Cache :=
  bind (get "thumbnail" media) (fun t =>
  if truthy t then
    bind (includesOf t "drive.google.com/file/d/") (fun drive =>
    if negb drive then
      bind (matchesImage t) (fun image =>
      Normal (if image
              then match t with
                   | JStr url => url :: cache
                   | _ => cache
                   end
              else cache))
    else Normal cache)
  else Normal cache).

(** A [forEach] that an exception ends: the cache as far as it got, and
    the exception if there was one. *)
Fixpoint cacheAll (cache : Cache) (medias : list jsval)
  : Cache * option string :=
  match medias with
  | [] => (cache, None)
  | media :: rest =>
      match cacheMedia cache media with
      | Normal cache' => cacheAll cache' rest
      | Throw e => (cache, Some e)
      end
  end.

(** [preCacheThumbnails()] *)
Fixpoint preCacheThumbnails (cache : Cache) (projects : list Project)
  : Cache * option string :=
  match projects with
  | [] => (cache, None)
  | project :: rest =>
      match cacheAll cache (media project) with
      | (cache', None) => preCacheThumbnails cache' rest
      | (cache', Some e) => (cache', Some e)
      end
  end.

(** What [createThumbnailContent] returns. *)
Inductive Thumbnail : Type :=
| DrivePlaceholder (url : jsval)    (* div.thumbnail-placeholder *)
| CachedImage (url : string)        (* img with its src *)
| LazyImage (url : string)          (* img.lazy-image with data-src *)
| IframePlaceholder (url : string)  (* div.iframe-placeholder *)
| Fallback (text : string).         (* div.thumbnail-fallback *)

(** [createThumbnailContent(thumbnailUrl, projectId, index, isVideo)] *)
Definition createThumbnailContent (cache : Cache) (thumbnailUrl : jsval)
           (isVideo : bool) : completion Thumbnail :=
  bind (if isVideo then includesOf thumbnailUrl "drive.google.com"
        else Normal false) (fun drive =>
  if drive then Normal (DrivePlaceholder thumbnailUrl)
  else
    match thumbnailUrl with
    | JStr url =>
        Normal (if isImageUrl url
                then if has cache url then CachedImage url else LazyImage url
                else IframePlaceholder url)
    | _ => Throw "TypeError: match is not a function"
    end).

(** The card that [createProjectElement] builds: the diary card, or a
    card with its thumbnail, the video flag and the number of media. *)
Inductive Card : Type :=
| DiaryCard
| ProjectCard (thumbnail : Thumbnail) (isVideo : bool) (mediaCount : Z).

(** [createProjectElement(project, index)] *)
Definition createProjectElement (cache : Cache) (project : Project)
  : completion Card :=
  if strict_eq_str (category project) "diary" then Normal DiaryCard
  else
    let hasMedia := negb (Nat.eqb (List.length (media project)) 0) in
    let firstMedia := if hasMedia then nth 0 (media project) JUndefined
                      else JNull in
    bind (if truthy firstMedia
          then bind (get "type" firstMedia)
                    (fun ty => Normal (strict_eq_str ty "video"))
          else Normal false) (fun isVideo =>
    bind (if hasMedia && truthy firstMedia
          then get "thumbnail" firstMedia
          else Normal JUndefined) (fun thumbnail =>
    bind (if truthy thumbnail
          then createThumbnailContent cache thumbnail isVideo
          else Normal (Fallback (if hasMedia then "Preview not available"
                                 else "No preview"))) (fun content =>
    Normal (ProjectCard content isVideo
                        (Z.of_nat (List.length (media project))))))).




End Thumbnails.

(* ================================================================== *)
(** ** The grid: cards or the empty state *)

Module Grid.
Import Js Loader Filter Counts Thumbnails.

(** The [labels] table of [getCategoryLabel]. *)
Definition labels : list (string * string) :=
  [ ("graphic", "Graphic Design");
    ("video", "Video Production");
    ("animation", "Animation");
    ("3d", "3D Modeling");
    ("audio", "Audio Production") ].

Fixpoint labelFor (key : string) (table : list (string * string))
  : option string :=
  match table with
  | [] => None
  | (k, l) :: table' =>
      if String.eqb k key then Some l else labelFor key table'
  end.

(** [labels[category] || category] for a string [category]: a text, or
    what [Object.prototype] holds under that name. *)
Inductive label : Type :=
| Text (s : string)
| InheritedValue.

Definition getCategoryLabel (category : string) : label :=
  match labelFor category labels with
  | Some l => Text l
  | None => if inherited category then InheritedValue else Text category
  end.

(** The message of [showEmptyState], by its varying parts: the
    lower-cased category name and, when the count is positive, the total
    of the second sentence. *)
Inductive Message : Type :=
| NoneInCategory (name : string) (total : option Z)
| NoTypeMatch
| NoProjects.

Record EmptyState : Type := mkEmptyState {
  message : Message;
  clearButton : bool
}.

(** [count > 0 ? ... : ''] *)
Definition positive (count : value) : option Z :=
  match count with
  | VNumber (Num n) => if 0 <? n then Some n else None
  | VNumber NaN | VInherited | VUndefined => None
  end.

(** [showEmptyState()]: a category name that is no text has no
    [toLowerCase]. *)
Definition showEmptyState (categoryCounts : object) (st : State)
  : completion EmptyState :=
  bind (if negb (String.eqb (currentCategory st) "all")
        then
          let count := countOf categoryCounts (currentCategory st) in
          match getCategoryLabel (currentCategory st) with
          | Text categoryName =>
              Normal (NoneInCategory (toLowerCase categoryName)
                                     (positive count))
          | InheritedValue =>
              Throw "TypeError: categoryName.toLowerCase is not a function"
          end
        else if negb (String.eqb (currentType st) "all")
        then Normal NoTypeMatch
        else Normal NoProjects) (fun m =>
  Normal {| message := m;
            clearButton := negb (String.eqb (currentCategory st) "all")
                           || negb (String.eqb (currentType st) "all") |}).

(** The content of [projectsContainer] after [renderProjects]. *)
Inductive Grid : Type :=
| EmptyGrid (e : EmptyState)
| CardGrid (cards : list Card).

Fixpoint createCards (cache : Cache) (ps : list Project)
  : completion (list Card) :=
  match ps with
  | [] => Normal []
  | p :: ps' =>
      bind (createProjectElement cache p) (fun card =>
      bind (createCards cache ps') (fun cards =>
      Normal (card :: cards)))
  end.

(** [renderProjects()] *)
Definition renderProjects (categoryCounts : object) (cache : Cache)
           (st : State) : completion Grid :=
  if Nat.eqb (List.length (filteredProjects st)) 0
  then bind (showEmptyState categoryCounts st)
            (fun e => Normal (EmptyGrid e))
  else bind (createCards cache (filteredProjects st))
            (fun cards => Normal (CardGrid cards)).

End Grid.

(* ================================================================== *)
(** ** The start of the page: [loadProjects] as a whole *)

Module Startup.
Import Js Loader Filter Counts Thumbnails Grid.

(** The variables of the script that [loadProjects] assigns. *)
Record App : Type := mkApp {
  state : State;
  categoryCounts : object;
  imageCache : Cache
}.

(** The content of [projectsContainer] when [loadProjects] is over: what
    [renderProjects] wrote, or the panel of [showError] for the exception
    that the [catch] block got. *)
Inductive Outcome : Type :=
| Rendered (g : Grid)
| Failed (error : string).

Definition with_projects (ps : list Project) (st : State) : State :=
  {| projects := ps;
     filteredProjects := filteredProjects st;
     currentCategory := currentCategory st;
     currentType := currentType st;
     currentProject := currentProject st;
     currentMediaIndex := currentMediaIndex st |}.

Definition with_filtered (ps : list Project) (st : State) : State :=
  {| projects := projects st;
     filteredProjects := ps;
     currentCategory := currentCategory st;
     currentType := currentType st;
     currentProject := currentProject st;
     currentMediaIndex := currentMediaIndex st |}.

Section Keys.

(** [ToPropertyKey], as in [calculateCategoryCounts]. *)
Variable toKey : jsval -> string.

(** [loadProjects()] from the validated [data.projects] array on: the
    [try] block goes on after the sort with [preCacheThumbnails],
    [calculateCategoryCounts], [updateFilterButtonsWithCounts] (which
    only rewrites the buttons), the assignment of [filteredProjects] and
    [renderProjects]; an exception of any of them ends in the [catch]
    block, with the assignments made so far in place. *)
Definition loadProjects (data_projects : list RawProject) (app : App)
  : App * Outcome :=
  match Loader.loadProjects data_projects with
  | Throw e => (app, Failed e)
  | Normal sorted =>
      let st := with_projects sorted (state app) in
      match preCacheThumbnails (imageCache app) sorted with
      | (cache, Some e) =>
          ({| state := st;
              categoryCounts := categoryCounts app;
              imageCache := cache |}, Failed e)
      | (cache, None) =>
          let counts := calculateCategoryCounts toKey sorted in
          let st := with_filtered sorted st in
          let app' := {| state := st;
                         categoryCounts := counts;
                         imageCache := cache |} in
          match renderProjects counts cache st with
          | Normal g => (app', Rendered g)
          | Throw e => (app', Failed e)
          end
      end
  end.

End Keys.




(** The page before the load, and sample documents. *)
Definition fresh : App :=
  {| state := initial; categoryCounts := []; imageCache := [] |}.


End Startup.
(* ================================================================== *)
(** * Properties *)

(** ** Characters and [parseInt] *)

Section CharFacts.
Import Js.

Lemma is_digit_code (c : ascii) :
  is_digit c = true <-> (48 <= code c <= 57)%N.
Proof.
  unfold is_digit, in_range.
  rewrite andb_true_iff, !N.leb_le. tauto.
Qed.

Lemma digit_val_range (c : ascii) :
  is_digit c = true -> 0 <= digit_val c <= 9.
Proof.
  intros H. apply is_digit_code in H. unfold digit_val. lia.
Qed.

(** A character that [\d] accepts is none of the other characters that
    the three expressions look for. *)
Lemma code_lt_256 (c : ascii) : (code c < 256)%N.
Proof. unfold code. apply N_ascii_bounded. Qed.

Lemma lower_char_digit (c : ascii) :
  is_digit c = true -> lower_char c = c.
Proof.
  intros H. apply is_digit_code in H. unfold lower_char, in_range.
  replace ((65 <=? code c)%N) with false by (symmetry; apply N.leb_gt; lia).
  replace ((192 <=? code c)%N) with false by (symmetry; apply N.leb_gt; lia).
  reflexivity.
Qed.

Lemma parseInt_1 (a : ascii) :
  is_digit a = true -> parseInt (String a "") = digit_val a.
Proof.
  intros Ha. unfold parseInt. cbn [parseInt_from]. rewrite Ha.
  cbn [parseInt_from]. lia.
Qed.

Lemma parseInt_2 (a b : ascii) :
  is_digit a = true -> is_digit b = true ->
  parseInt (String a (String b "")) = 10 * digit_val a + digit_val b.
Proof.
  intros Ha Hb. unfold parseInt.
  cbn [parseInt_from]. rewrite Ha. cbn [parseInt_from]. rewrite Hb.
  cbn [parseInt_from]. lia.
Qed.

Lemma parseInt_4 (a b c d : ascii) :
  is_digit a = true -> is_digit b = true ->
  is_digit c = true -> is_digit d = true ->
  parseInt (String a (String b (String c (String d ""))))
  = 1000 * digit_val a + 100 * digit_val b + 10 * digit_val c + digit_val d.
Proof.
  intros Ha Hb Hc Hd. unfold parseInt.
  cbn [parseInt_from]. rewrite Ha. cbn [parseInt_from]. rewrite Hb.
  cbn [parseInt_from]. rewrite Hc. cbn [parseInt_from]. rewrite Hd.
  cbn [parseInt_from]. lia.
Qed.

End CharFacts.

(** ** The matcher is sound for [matches] *)

Section MatcherFacts.
Import Js Regex.

Lemma append_assoc (a b c : string) : ((a ++ b) ++ c = a ++ (b ++ c))%string.
Proof. induction a as [|x a IH]; simpl; [reflexivity | now rewrite IH]. Qed.

Lemma length_append (a b : string) :
  String.length (a ++ b) = (String.length a + String.length b)%nat.
Proof. induction a as [|x a IH]; simpl; [reflexivity | now rewrite IH]. Qed.

Lemma substring_prefix (w s : string) :
  substring 0 (String.length w) (w ++ s) = w.
Proof.
  induction w as [|x w IH]; simpl.
  - destruct s; reflexivity.
  - now rewrite IH.
Qed.

Lemma consumed_append (w s : string) : consumed (w ++ s) s = w.
Proof.
  unfold consumed. rewrite length_append.
  replace (String.length w + String.length s - String.length s)%nat
    with (String.length w) by lia.
  apply substring_prefix.
Qed.

Lemma star_class_sound p s caps k res :
  star_class p s caps k = Some res ->
  exists w s', s = (w ++ s')%string /\ all_in p w = true
               /\ k s' caps = Some res.
Proof.
  revert res. induction s as [|c s IH]; intros res H; simpl in H.
  - exists "", "". auto.
  - destruct (p c) eqn:Hp.
    + destruct (star_class p s caps k) as [r|] eqn:Hs.
      * injection H as ->.
        destruct (IH res eq_refl) as (w & s' & -> & Hw & Hk).
        exists (String c w), s'. simpl. rewrite Hp, Hw. auto.
      * exists "", (String c s). auto.
    + exists "", (String c s). auto.
Qed.

Lemma rmatch_sound ci r : forall s caps k res,
  rmatch ci r s caps k = Some res ->
  exists w s' caps',
    s = (w ++ s')%string /\ matches ci r w caps caps'
    /\ k s' caps' = Some res.
Proof.
  induction r as [ | a | p | r1 IH1 r2 IH2 | r1 IH1 r2 IH2 | r1 IH1 | p
                 | n r1 IH1 ]; intros s caps k res H; simpl in H.
  - exists "", s, caps. repeat split; auto. constructor.
  - destruct s as [|c s]; [discriminate|].
    destruct (same_char ci a c) eqn:E; [|discriminate].
    exists (String c ""), s, caps. repeat split; auto. now constructor.
  - destruct s as [|c s]; [discriminate|].
    destruct (p c) eqn:E; [|discriminate].
    exists (String c ""), s, caps. repeat split; auto. now constructor.
  - apply IH1 in H. destruct H as (w1 & s1 & caps1 & -> & M1 & H).
    apply IH2 in H. destruct H as (w2 & s2 & caps2 & -> & M2 & H).
    exists (w1 ++ w2)%string, s2, caps2.
    rewrite append_assoc. repeat split; auto. econstructor; eauto.
  - destruct (rmatch ci r1 s caps k) as [r|] eqn:E.
    + injection H as ->. apply IH1 in E.
      destruct E as (w & s' & caps' & -> & M & Hk).
      exists w, s', caps'. repeat split; auto. now apply M_AltL.
    + apply IH2 in H. destruct H as (w & s' & caps' & -> & M & Hk).
      exists w, s', caps'. repeat split; auto. now apply M_AltR.
  - destruct (rmatch ci r1 s caps k) as [r|] eqn:E.
    + injection H as ->. apply IH1 in E.
      destruct E as (w & s' & caps' & -> & M & Hk).
      exists w, s', caps'. repeat split; auto. now apply M_OptSome.
    + exists "", s, caps. repeat split; auto. apply M_OptNone.
  - destruct s as [|c s]; [discriminate|].
    destruct (p c) eqn:E; [|discriminate].
    apply star_class_sound in H. destruct H as (w & s' & -> & Hw & Hk).
    exists (String c w), s', caps. repeat split; auto. now constructor.
  - apply IH1 in H. destruct H as (w & s' & caps' & -> & M & Hk).
    rewrite consumed_append in Hk.
    exists w, s', ((n, w) :: caps'). repeat split; auto. now constructor.
Qed.

Lemma match_here_sound ci r s m :
  match_here ci r s = Some m ->
  exists w s', s = (w ++ s')%string /\ matches ci (Group 0 r) w [] m.
Proof.
  unfold match_here. intros H. apply rmatch_sound in H.
  destruct H as (w & s' & caps' & -> & M & Hk).
  injection Hk as ->. eauto.
Qed.

(** A successful [exec] returns the captures of a match of some substring
    of the input. *)
Lemma exec_sound ci r s m :
  exec ci r s = Some m ->
  exists pre w post,
    s = (pre ++ w ++ post)%string /\ matches ci (Group 0 r) w [] m.
Proof.
  induction s as [|c s IH]; simpl; intros H.
  - destruct (match_here ci r "") eqn:E; [|discriminate].
    injection H as ->. apply match_here_sound in E.
    destruct E as (w & s' & E & M). exists "", w, s'. auto.
  - destruct (match_here ci r (String c s)) eqn:E.
    + injection H as ->. apply match_here_sound in E.
      destruct E as (w & s' & E & M). exists "", w, s'. auto.
    + destruct (IH H) as (pre & w & post & -> & M).
      exists (String c pre), w, post. auto.
Qed.

End MatcherFacts.

(** ** The matcher is complete for [matches] *)

Section MatcherComplete.
Import Js Regex.

Lemma star_class_complete p w : forall s' caps k,
  all_in p w = true ->
  k s' caps <> None ->
  star_class p (w ++ s') caps k <> None.
Proof.
  induction w as [|c w IH]; intros s' caps k Hw Hk; simpl in *.
  - destruct s' as [|c s']; simpl; auto.
    destruct (p c); auto.
    destruct (star_class p s' caps k); auto. discriminate.
  - apply andb_true_iff in Hw. destruct Hw as [Hc Hw]. rewrite Hc.
    specialize (IH s' caps k Hw Hk).
    destruct (star_class p (w ++ s') caps k); [discriminate | contradiction].
Qed.

Lemma rmatch_complete ci r w caps caps' :
  matches ci r w caps caps' ->
  forall s' k, k s' caps' <> None -> rmatch ci r (w ++ s') caps k <> None.
Proof.
  induction 1 as [ caps | a c caps Hc | p c caps Hc
                 | r1 r2 w1 w2 caps caps1 caps2 _ IH1 _ IH2
                 | r1 r2 w caps caps1 _ IH | r1 r2 w caps caps1 _ IH
                 | r w caps caps1 _ IH | r caps
                 | p c w caps Hc Hw | n r w caps caps1 _ IH ];
    intros s' k Hk; simpl.
  - exact Hk.
  - now rewrite Hc.
  - now rewrite Hc.
  - rewrite append_assoc. apply IH1. now apply IH2.
  - specialize (IH s' k Hk).
    destruct (rmatch ci r1 (w ++ s') caps k); [discriminate | contradiction].
  - destruct (rmatch ci r1 (w ++ s') caps k); [discriminate|]. now apply IH.
  - specialize (IH s' k Hk).
    destruct (rmatch ci r (w ++ s') caps k); [discriminate | contradiction].
  - destruct (rmatch ci r s' caps k); [discriminate | exact Hk].
  - rewrite Hc. now apply star_class_complete.
  - apply IH. now rewrite consumed_append.
Qed.

(** [exec] fails only when no substring of the input matches. *)
Lemma exec_complete ci r pre w post m :
  matches ci (Group 0 r) w [] m ->
  exec ci r (pre ++ w ++ post) <> None.
Proof.
  intros M. induction pre as [|c pre IH]; simpl.
  - assert (H : match_here ci r (w ++ post) <> None).
    { unfold match_here. eapply rmatch_complete; eauto. discriminate. }
    destruct (w ++ post)%string; simpl;
      destruct (match_here ci r _); try discriminate; contradiction.
  - destruct (match_here ci r _); [discriminate | exact IH].
Qed.

End MatcherComplete.

(** ** What the groups of the three expressions hold *)

Section GroupFacts.
Import Js Regex DateParser.

Ltac inv H := inversion H; subst; clear H.

Lemma matches_no_group ci r w caps caps' :
  matches ci r w caps caps' -> no_group r = true -> caps' = caps.
Proof.
  induction 1; simpl; intros G; try reflexivity;
    try (apply andb_true_iff in G; destruct G); auto; try discriminate.
  transitivity caps1; auto.
Qed.

Ltac same_captures :=
  repeat match goal with
         | H : matches _ _ _ _ ?c |- _ =>
             is_var c;
             let E := fresh in
             assert (E := matches_no_group _ _ _ _ _ H eq_refl); subst c
         end.

Lemma digit_word ci w caps caps' :
  matches ci digit w caps caps' ->
  exists a, w = String a "" /\ is_digit a = true.
Proof. unfold digit. intros H. inv H. eauto. Qed.

Lemma four_digits_word ci w caps caps' :
  matches ci (rep 4 digit) w caps caps' ->
  exists a b c d,
    w = String a (String b (String c (String d "")))
    /\ is_digit a = true /\ is_digit b = true
    /\ is_digit c = true /\ is_digit d = true.
Proof.
  cbn [rep]. intros H.
  inv H. match goal with H : matches _ (Cat _ _) _ _ _ |- _ => inv H end.
  match goal with H : matches _ (Cat _ _) _ _ _ |- _ => inv H end.
  repeat match goal with
         | H : matches _ digit _ _ _ |- _ =>
             apply digit_word in H; destruct H as (? & -> & ?)
         end.
  simpl. eauto 10.
Qed.

Lemma four_digits_range (w : string) :
  (exists a b c d,
    w = String a (String b (String c (String d "")))
    /\ is_digit a = true /\ is_digit b = true
    /\ is_digit c = true /\ is_digit d = true) ->
  0 <= parseInt w <= 9999.
Proof.
  intros (a & b & c & d & -> & Ha & Hb & Hc & Hd).
  rewrite parseInt_4 by assumption.
  apply digit_val_range in Ha, Hb, Hc, Hd. lia.
Qed.

(** [/(\d{4})/]: group 1 is four digits. *)
Lemma yearRe_groups s m :
  exec false yearRe s = Some m -> 0 <= parseInt (text 1 m) <= 9999.
Proof.
  intros H. apply exec_sound in H. destruct H as (pre & w & post & _ & M).
  unfold yearRe in M. inv M.
  match goal with H : matches _ (Group 1 _) _ _ _ |- _ => inv H end.
  match goal with H : matches _ (Cat digit (Cat digit _)) _ _ _ |- _ =>
    apply four_digits_word in H end.
  unfold text. cbn [group Nat.eqb]. now apply four_digits_range.
Qed.

(** [/(\d{4})[-/](\d{1,2})/]: group 1 is four digits and group 2 is one
    or two digits. *)
Lemma dashRe_groups s m :
  exec false dashRe s = Some m ->
  0 <= parseInt (text 1 m) <= 9999 /\ 0 <= parseInt (text 2 m) <= 99.
Proof.
  intros H. apply exec_sound in H. destruct H as (pre & w & post & _ & M).
  unfold dashRe in M. inv M.
  match goal with H : matches _ (Cat _ _) _ _ _ |- _ => inv H end.
  match goal with H : matches _ (Cat _ _) _ _ _ |- _ => inv H end.
  repeat match goal with H : matches _ (Group _ _) _ _ _ |- _ => inv H end.
  same_captures.
  match goal with H : matches _ (Cat digit (Cat digit _)) _ _ _ |- _ =>
    apply four_digits_word in H end.
  match goal with H : matches _ (Cat digit (Opt _)) _ _ _ |- _ => inv H end.
  match goal with H : matches _ digit _ _ _ |- _ =>
    apply digit_word in H; destruct H as (m1 & -> & Hm1) end.
  unfold text. cbn [group Nat.eqb]. split.
  - now apply four_digits_range.
  - pose proof (digit_val_range _ Hm1).
    match goal with H : matches _ (Opt digit) _ _ _ |- _ => inv H end.
    + match goal with H : matches _ digit _ _ _ |- _ =>
        apply digit_word in H; destruct H as (m2 & -> & Hm2) end.
      pose proof (digit_val_range _ Hm2).
      simpl. rewrite parseInt_2 by assumption. lia.
    + simpl. rewrite parseInt_1 by assumption. lia.
Qed.

(** [/(january|...|dec)\s+(\d{4})/i]: group 2 is four digits. *)
Lemma monthYearRe_groups s m :
  exec true monthYearRe s = Some m -> 0 <= parseInt (text 2 m) <= 9999.
Proof.
  intros H. apply exec_sound in H. destruct H as (pre & w & post & _ & M).
  unfold monthYearRe in M. inv M.
  match goal with H : matches _ (Cat _ _) _ _ _ |- _ => inv H end.
  match goal with H : matches _ (Cat _ _) _ _ _ |- _ => inv H end.
  match goal with H : matches _ (Group 2 _) _ _ _ |- _ => inv H end.
  match goal with H : matches _ (Cat digit (Cat digit _)) _ _ _ |- _ =>
    apply four_digits_word in H end.
  unfold text. cbn [group Nat.eqb]. now apply four_digits_range.
Qed.

Lemma lookup_Forall (P : Z -> Prop) key table v :
  Forall (fun kv => P (snd kv)) table ->
  lookup key table = Some v -> P v.
Proof.
  induction 1 as [|[k x] table Hx _ IH]; simpl; [discriminate|].
  destruct (String.eqb k key); [|exact IH].
  intros E. injection E as <-. exact Hx.
Qed.

(** Whatever the name, the month taken from the table is a month. *)
Lemma monthNumber_range (name : string) : 1 <= monthNumber name <= 12.
Proof.
  unfold monthNumber.
  destruct (lookup (toLowerCase name) monthNames) as [v|] eqn:E; [|lia].
  apply (lookup_Forall (fun v => 1 <= v <= 12)) in E.
  - destruct (v =? 0); lia.
  - unfold monthNames. repeat constructor; simpl; lia.
Qed.

End GroupFacts.

(** ** The date parser *)

Section DateParserFacts.
Import Js Regex DateParser.

(** The guard at the top of [parseYearMonth] never changes the answer for
    a string: on the empty string and on "Unknown Date" the three formats
    fail as well. *)
Lemma parseYearMonth_string (s : string) :
  parseYearMonth (JStr s) = Normal (parseLowered (toLowerCase s)).
Proof.
  unfold parseYearMonth. cbn [truthy strict_eq_str].
  destruct (String.eqb s "") eqn:E0.
  - apply String.eqb_eq in E0. subst s. reflexivity.
  - destruct (String.eqb s "Unknown Date") eqn:E1.
    + apply String.eqb_eq in E1. subst s. vm_compute. reflexivity.
    + reflexivity.
Qed.

(** C1: the date parser applied to "August 2024", "2024-08", "2024" and
    "Unknown Date" returns the sort keys 202408, 202408, 202400 and 0. *)
Theorem parseYearMonth_examples :
  parseYearMonth (JStr "August 2024")
    = Normal {| year := 2024; month := 8; sortKey := 202408 |}
  /\ parseYearMonth (JStr "2024-08")
    = Normal {| year := 2024; month := 8; sortKey := 202408 |}
  /\ parseYearMonth (JStr "2024")
    = Normal {| year := 2024; month := 1; sortKey := 202400 |}
  /\ parseYearMonth (JStr "Unknown Date")
    = Normal {| year := 2000; month := 1; sortKey := 0 |}.
Proof. repeat split; vm_compute; reflexivity. Qed.

(** C2: on every string [parseYearMonth] returns a value and does not
    throw; the value comes from the month-name format when that matches,
    else from the numeric year-month format when that matches, else from
    the bare year when there is one, and otherwise it has sort key 0 and
    year 2000. *)
Theorem parseYearMonth_total_in_order (s : string) :
  exists r : YearMonth,
    parseYearMonth (JStr s) = Normal r
    /\ match exec true monthYearRe (toLowerCase s),
             exec false dashRe (toLowerCase s),
             exec false yearRe (toLowerCase s) with
       | Some m, _, _ => r = fromMonthYear m
       | None, Some m, _ => r = fromDash m
       | None, None, Some m => r = fromYear m
       | None, None, None => sortKey r = 0 /\ year r = 2000
       end.
Proof.
  exists (parseLowered (toLowerCase s)). split.
  - apply parseYearMonth_string.
  - unfold parseLowered.
    destruct (exec true monthYearRe (toLowerCase s)); [reflexivity|].
    destruct (exec false dashRe (toLowerCase s)); [reflexivity|].
    destruct (exec false yearRe (toLowerCase s)); [reflexivity|].
    split; reflexivity.
Qed.

(** C3, as the claim states it, fails on a bare year: the month field is
    1 and the sort key ends in 00. *)
Lemma sortKey_formula_fails_on_bare_year :
  exists r : YearMonth,
    parseYearMonth (JStr "2024") = Normal r
    /\ sortKey r <> year r * 100 + month r.
Proof.
  exists {| year := 2024; month := 1; sortKey := 202400 |}.
  split; [vm_compute; reflexivity | simpl; lia].
Qed.

(** C3 (amended): on every string, the sort key is year * 100 + month when
    the month-name or the numeric year-month format matched; it is
    year * 100, with month 1, when only a bare year matched; and it is 0,
    with year 2000 and month 1, when nothing matched. *)
Theorem sortKey_by_format (s : string) :
  exists r : YearMonth,
    parseYearMonth (JStr s) = Normal r
    /\ match exec true monthYearRe (toLowerCase s),
             exec false dashRe (toLowerCase s),
             exec false yearRe (toLowerCase s) with
       | Some _, _, _ | None, Some _, _ =>
           sortKey r = year r * 100 + month r
       | None, None, Some _ =>
           sortKey r = year r * 100 /\ month r = 1
       | None, None, None =>
           sortKey r = 0 /\ year r = 2000 /\ month r = 1
       end.
Proof.
  exists (parseLowered (toLowerCase s)). split.
  - apply parseYearMonth_string.
  - unfold parseLowered.
    destruct (exec true monthYearRe (toLowerCase s)); [reflexivity|].
    destruct (exec false dashRe (toLowerCase s)); [reflexivity|].
    destruct (exec false yearRe (toLowerCase s)); repeat split; reflexivity.
Qed.

(** The fields of every result are small natural numbers: the year has at
    most four digits and the month at most two. *)
Lemma parseLowered_range (d : string) :
  0 <= year (parseLowered d) <= 9999
  /\ 0 <= month (parseLowered d) <= 99
  /\ 0 <= sortKey (parseLowered d) <= 999999.
Proof.
  unfold parseLowered.
  destruct (exec true monthYearRe d) as [m|] eqn:E1.
  { apply monthYearRe_groups in E1.
    pose proof (monthNumber_range (text 1 m)). simpl. lia. }
  destruct (exec false dashRe d) as [m|] eqn:E2.
  { apply dashRe_groups in E2. simpl. lia. }
  destruct (exec false yearRe d) as [m|] eqn:E3.
  { apply yearRe_groups in E3. simpl. lia. }
  simpl. lia.
Qed.

End DateParserFacts.

(** ** The numeric format does not validate the month *)

Section NumericFormat.
Import Js Regex DateParser.

Lemma match_here_monthYear_initial c s :
  month_initial c = false ->
  match_here true monthYearRe (String c s) = None.
Proof.
  unfold month_initial. cbn [existsb]. rewrite !orb_false_iff.
  intros (Hj & Hf & Hm & Ha & Hs & Ho & Hn & Hd & _).
  unfold match_here, monthYearRe, monthAlternatives.
  cbn [map lit alts rmatch].
  rewrite Hj, Hf, Hm, Ha, Hs, Ho, Hn, Hd. reflexivity.
Qed.

Lemma canonicalize_below_a (c : ascii) :
  (code c < 97)%N -> canonicalize c = code c.
Proof.
  intros H. unfold canonicalize, in_range.
  replace ((97 <=? code c)%N) with false by (symmetry; apply N.leb_gt; lia).
  replace ((224 <=? code c)%N) with false by (symmetry; apply N.leb_gt; lia).
  replace ((code c =? 255)%N) with false by (symmetry; apply N.eqb_neq; lia).
  replace ((code c =? 181)%N) with false by (symmetry; apply N.eqb_neq; lia).
  reflexivity.
Qed.

Lemma month_initial_below_A (c : ascii) :
  (code c < 65)%N -> month_initial c = false.
Proof.
  intros H. unfold month_initial, same_char. cbn [existsb].
  rewrite (canonicalize_below_a c) by lia.
  repeat match goal with
         | |- context [canonicalize ?a] =>
             let n := eval vm_compute in (canonicalize a) in
             change (canonicalize a) with n
         end.
  rewrite !orb_false_iff. repeat split; try apply N.eqb_neq; lia.
Qed.


Lemma month_initial_digit c : is_digit c = true -> month_initial c = false.
Proof.
  intros H. apply is_digit_code in H. apply month_initial_below_A. lia.
Qed.

Lemma month_initial_sep c :
  is_dash_or_slash c = true -> month_initial c = false.
Proof.
  unfold is_dash_or_slash. rewrite orb_true_iff, !N.eqb_eq.
  intros H. apply month_initial_below_A. lia.
Qed.

Lemma lower_char_sep c : is_dash_or_slash c = true -> lower_char c = c.
Proof.
  unfold is_dash_or_slash. rewrite orb_true_iff, !N.eqb_eq. intros H.
  unfold lower_char, in_range.
  replace ((65 <=? code c)%N) with false by (symmetry; apply N.leb_gt; lia).
  replace ((192 <=? code c)%N) with false by (symmetry; apply N.leb_gt; lia).
  reflexivity.
Qed.

(** No month name starts in a string of digits, dashes and slashes. *)
Lemma exec_monthYear_numeric (s : string) :
  all_in numeric_char s = true -> exec true monthYearRe s = None.
Proof.
  induction s as [|c s IH]; intros H.
  - reflexivity.
  - simpl in H. apply andb_true_iff in H. destruct H as [Hc Hs].
    cbn [exec]. rewrite match_here_monthYear_initial.
    + now apply IH.
    + unfold numeric_char in Hc. apply orb_true_iff in Hc.
      destruct Hc; [now apply month_initial_digit | now apply month_initial_sep].
Qed.

Lemma dash_or_slash_not_digit c :
  is_dash_or_slash c = true -> is_digit c = false.
Proof.
  unfold is_dash_or_slash. rewrite orb_true_iff, !N.eqb_eq. intros H.
  unfold is_digit, in_range.
  replace ((48 <=? code c)%N) with false by (symmetry; apply N.leb_gt; lia).
  reflexivity.
Qed.

Section Digits.
Variables y1 y2 y3 y4 sep m1 : ascii.
Hypothesis Hy1 : is_digit y1 = true.
Hypothesis Hy2 : is_digit y2 = true.
Hypothesis Hy3 : is_digit y3 = true.
Hypothesis Hy4 : is_digit y4 = true.
Hypothesis Hsep : is_dash_or_slash sep = true.
Hypothesis Hm1 : is_digit m1 = true.

Let date (ms : string) : string :=
  String y1 (String y2 (String y3 (String y4 (String sep ms)))).

Lemma exec_dash_one :
  exec false dashRe (date (String m1 ""))
  = Some [ (0%nat, date (String m1 ""));
           (2%nat, String m1 "");
           (1%nat, String y1 (String y2 (String y3 (String y4 "")))) ].
Proof.
  unfold date, dashRe, digit. cbn [exec match_here rmatch rep].
  rewrite Hy1, Hy2, Hy3, Hy4, Hsep, Hm1. reflexivity.
Qed.

Lemma exec_dash_two m2 :
  is_digit m2 = true ->
  exec false dashRe (date (String m1 (String m2 "")))
  = Some [ (0%nat, date (String m1 (String m2 "")));
           (2%nat, String m1 (String m2 ""));
           (1%nat, String y1 (String y2 (String y3 (String y4 "")))) ].
Proof.
  intros Hm2.
  unfold date, dashRe, digit. cbn [exec match_here rmatch rep].
  rewrite Hy1, Hy2, Hy3, Hy4, Hsep, Hm1, Hm2. reflexivity.
Qed.

End Digits.

Lemma sep_is_dash_or_slash (sep : ascii) :
  (sep = "-" \/ sep = "/")%char -> is_dash_or_slash sep = true.
Proof. intros [-> | ->]; reflexivity. Qed.

(** C10: in the numeric year-month format the month is not validated.
    For four digits, a dash or slash and one or two digits, the result has
    the month that the digits spell (0 and 13..99 included) and the sort
    key year * 100 + month; "2024-99" gets the key 202499, above the key of
    every real month of 2024. *)
Theorem numeric_month_not_validated :
  (forall y1 y2 y3 y4 sep m1 : ascii,
      is_digit y1 = true -> is_digit y2 = true ->
      is_digit y3 = true -> is_digit y4 = true ->
      (sep = "-" \/ sep = "/")%char ->
      is_digit m1 = true ->
      let Y := 1000 * digit_val y1 + 100 * digit_val y2
               + 10 * digit_val y3 + digit_val y4 in
      let date := fun ms : string =>
        JStr (String y1 (String y2 (String y3 (String y4 (String sep ms))))) in
      parseYearMonth (date (String m1 ""))
        = Normal {| year := Y; month := digit_val m1;
                    sortKey := Y * 100 + digit_val m1 |}
      /\ forall m2 : ascii,
          is_digit m2 = true ->
          let M := 10 * digit_val m1 + digit_val m2 in
          parseYearMonth (date (String m1 (String m2 "")))
            = Normal {| year := Y; month := M; sortKey := Y * 100 + M |})
  /\ parseYearMonth (JStr "2024-99")
       = Normal {| year := 2024; month := 99; sortKey := 202499 |}
  /\ Forall (fun d => exists r, parseYearMonth (JStr d) = Normal r
                                /\ sortKey r < 202499)
       [ "January 2024"; "February 2024"; "March 2024"; "April 2024";
         "May 2024"; "June 2024"; "July 2024"; "August 2024";
         "September 2024"; "October 2024"; "November 2024"; "December 2024";
         "2024-01"; "2024-02"; "2024-03"; "2024-04"; "2024-05"; "2024-06";
         "2024-07"; "2024-08"; "2024-09"; "2024-10"; "2024-11"; "2024-12" ].
Proof.
  split; [|split].
  - intros y1 y2 y3 y4 sep m1 Hy1 Hy2 Hy3 Hy4 Hsep Hm1 Y date.
    apply sep_is_dash_or_slash in Hsep.
    assert (Hlow : forall ms, toLowerCase ms = ms ->
              toLowerCase (String y1 (String y2 (String y3 (String y4
                             (String sep ms)))))
              = String y1 (String y2 (String y3 (String y4 (String sep ms))))).
    { intros ms E. cbn [toLowerCase].
      rewrite !lower_char_digit, lower_char_sep, E by assumption.
      reflexivity. }
    assert (Hnum : forall ms, all_in numeric_char ms = true ->
              all_in numeric_char
                (String y1 (String y2 (String y3 (String y4 (String sep ms)))))
              = true).
    { intros ms E. cbn [all_in]. unfold numeric_char at 1 2 3 4 5.
      rewrite Hy1, Hy2, Hy3, Hy4, Hsep, E, orb_true_r. reflexivity. }
    split.
    + unfold date. rewrite parseYearMonth_string, Hlow.
      2:{ cbn [toLowerCase]. now rewrite lower_char_digit. }
      unfold parseLowered. rewrite exec_monthYear_numeric.
      2:{ apply Hnum. cbn [all_in]. unfold numeric_char. now rewrite Hm1. }
      rewrite exec_dash_one by assumption.
      unfold fromDash, text. cbn [group Nat.eqb].
      rewrite parseInt_4, parseInt_1 by assumption. reflexivity.
    + intros m2 Hm2 M.
      unfold date. rewrite parseYearMonth_string, Hlow.
      2:{ cbn [toLowerCase]. now rewrite !lower_char_digit. }
      unfold parseLowered. rewrite exec_monthYear_numeric.
      2:{ apply Hnum. cbn [all_in]. unfold numeric_char.
          now rewrite Hm1, Hm2. }
      rewrite exec_dash_two by assumption.
      unfold fromDash, text. cbn [group Nat.eqb].
      rewrite parseInt_4, parseInt_2 by assumption. reflexivity.
  - vm_compute. reflexivity.
  - repeat constructor;
      (eexists; split; [vm_compute; reflexivity | vm_compute; reflexivity]).
Qed.

Lemma numeric_month_not_validated_witness :
  parseYearMonth (JStr "2024-0")
    = Normal {| year := 2024; month := 0; sortKey := 202400 |}
  /\ parseYearMonth (JStr "2024/13")
    = Normal {| year := 2024; month := 13; sortKey := 202413 |}.
Proof.
  split.
  - exact (proj1 (proj1 numeric_month_not_validated
                    "2" "0" "2" "4" "-" "0"
                    eq_refl eq_refl eq_refl eq_refl (or_introl eq_refl)
                    eq_refl)%char).
  - exact (proj2 (proj1 numeric_month_not_validated
                    "2" "0" "2" "4" "/" "1"
                    eq_refl eq_refl eq_refl eq_refl (or_intror eq_refl)
                    eq_refl)%char "3"%char eq_refl).
Defined.

End NumericFormat.

(** ** Loading *)

Section LoaderFacts.
Import Js DateParser Loader.

(** The order that [compare] decides: [a] is not older than [b]. *)
Lemma compare_nonpos (a b : Project) :
  compare a b <= 0 <-> newer_or_same (sortDate a) (sortDate b).
Proof.
  unfold compare, newer_or_same.
  destruct (Z.eqb_spec (year (sortDate b)) (year (sortDate a))); simpl; lia.
Qed.

Lemma compare_total (a b : Project) : compare a b <= 0 \/ compare b a <= 0.
Proof. rewrite !compare_nonpos. unfold newer_or_same. lia. Qed.

Lemma compare_trans (a b c : Project) :
  compare a b <= 0 -> compare b c <= 0 -> compare a c <= 0.
Proof. rewrite !compare_nonpos. unfold newer_or_same. lia. Qed.

Lemma insert_perm a l : Permutation (a :: l) (insert a l).
Proof.
  induction l as [|b l IH]; simpl; [reflexivity|].
  destruct (compare a b <=? 0); [reflexivity|].
  rewrite perm_swap. now constructor.
Qed.

Lemma sort_perm l : Permutation l (sort l).
Proof.
  induction l as [|a l IH]; simpl; [constructor|].
  rewrite <- insert_perm. now constructor.
Qed.

Lemma insert_sorted a l :
  StronglySorted before l -> StronglySorted before (insert a l).
Proof.
  induction 1 as [|b l Hl IH Hb]; simpl.
  - repeat constructor.
  - destruct (Z.leb_spec (compare a b) 0) as [Hab|Hab].
    + constructor; [now constructor|].
      constructor; [exact Hab|].
      eapply Forall_impl; [|exact Hb].
      intros c Hc. eapply compare_trans; eauto.
    + constructor; [exact IH|].
      eapply Permutation_Forall; [apply insert_perm|].
      constructor; [|exact Hb].
      destruct (compare_total a b); [lia | assumption].
Qed.

Lemma sort_sorted l : StronglySorted before (sort l).
Proof.
  induction l as [|a l IH]; simpl; [constructor | now apply insert_sorted].
Qed.

Lemma StronglySorted_nth (R : Project -> Project -> Prop) l :
  StronglySorted R l ->
  forall i j p q, (i < j)%nat ->
    nth_error l i = Some p -> nth_error l j = Some q -> R p q.
Proof.
  induction 1 as [|a l Hl IH Ha]; intros i j p q Hij Hi Hj.
  - destruct i; discriminate.
  - destruct j as [|j]; [lia|]. simpl in Hj. destruct i as [|i]; simpl in Hi.
    + injection Hi as <-. rewrite Forall_forall in Ha.
      apply Ha. eapply nth_error_In; eauto.
    + apply (IH i j); auto. lia.
Qed.

End LoaderFacts.

Section NormalizeFacts.
Import Js DateParser Loader.

Lemma parseYearMonth_ok (v : jsval) :
  date_ok v = true -> exists r, parseYearMonth v = Normal r.
Proof.
  destruct v as [ | | b | z | s | l | fields ]; simpl; intros H;
    try discriminate.
  - eexists. reflexivity.
  - eexists. reflexivity.
  - apply negb_true_iff in H. subst b. eexists. reflexivity.
  - unfold parseYearMonth. cbn [truthy]. rewrite H. eexists. reflexivity.
  - rewrite parseYearMonth_string. eauto.
Qed.

(** Every other value makes [parseYearMonth] throw. *)
Lemma parseYearMonth_throws (v : jsval) :
  date_ok v = false -> exists msg, parseYearMonth v = Throw msg.
Proof.
  destruct v as [ | | b | z | s | l | fields ]; simpl; intros H;
    try discriminate.
  - apply negb_false_iff in H. subst b. eexists. reflexivity.
  - unfold parseYearMonth. cbn [truthy]. rewrite H. eexists. reflexivity.
  - eexists. reflexivity.
  - eexists. reflexivity.
Qed.

Lemma parseYearMonth_range (v : jsval) (r : YearMonth) :
  parseYearMonth v = Normal r ->
  0 <= year r <= 9999 /\ 0 <= month r <= 99 /\ 0 <= sortKey r <= 999999.
Proof.
  unfold parseYearMonth.
  destruct (negb (truthy v) || strict_eq_str v "Unknown Date").
  - intros E. injection E as <-. simpl. lia.
  - destruct v; try discriminate.
    intros E. injection E as <-. apply parseLowered_range.
Qed.

Lemma normalize_defaulted raw index p :
  normalize raw index = Normal p -> defaulted index raw p.
Proof.
  unfold normalize.
  destruct (parseYearMonth (raw_date raw)) as [sd|]; [|discriminate].
  simpl. intros E. injection E as <-.
  unfold defaulted, or_else, or_empty. simpl. repeat split.
Qed.

Lemma normalize_sortDate raw index p :
  normalize raw index = Normal p ->
  parseYearMonth (raw_date raw) = Normal (sortDate p).
Proof.
  unfold normalize.
  destruct (parseYearMonth (raw_date raw)) as [sd|]; [|discriminate].
  simpl. intros E. injection E as <-. reflexivity.
Qed.

Lemma map_from_nth data : forall k ps,
  map_from k data = Normal ps ->
  List.length ps = List.length data
  /\ forall i raw, nth_error data i = Some raw ->
       exists p, nth_error ps i = Some p
                 /\ normalize raw (k + i) = Normal p.
Proof.
  induction data as [|raw0 data IH]; intros k ps H; simpl in H.
  - injection H as <-. split; [reflexivity|]. intros [|i] raw; discriminate.
  - destruct (normalize raw0 k) as [p0|] eqn:E0; [|discriminate].
    simpl in H.
    destruct (map_from (S k) data) as [ps0|] eqn:E1; [|discriminate].
    simpl in H. injection H as <-.
    destruct (IH _ _ E1) as [Hlen Hnth]. split; [simpl; congruence|].
    intros [|i] raw Hi; simpl in Hi.
    + injection Hi as <-. exists p0. rewrite Nat.add_0_r. auto.
    + destruct (Hnth i raw Hi) as (p & Hp & Hn). exists p.
      replace (k + S i)%nat with (S k + i)%nat by lia. auto.
Qed.

Lemma map_from_ok data : forall k,
  Forall (fun raw => date_ok (raw_date raw) = true) data ->
  exists ps, map_from k data = Normal ps.
Proof.
  induction data as [|raw data IH]; intros k H.
  - exists []. reflexivity.
  - inversion H as [|? ? Hraw Hdata]; subst.
    destruct (parseYearMonth_ok _ Hraw) as [r Hr].
    destruct (IH (S k) Hdata) as [ps Hps].
    simpl. unfold normalize at 1. rewrite Hr. simpl. rewrite Hps. simpl.
    eauto.
Qed.

Lemma map_from_range data : forall k ps,
  map_from k data = Normal ps ->
  Forall (fun p => 0 <= month (sortDate p) <= 99) ps.
Proof.
  intros k ps H. apply Forall_forall. intros p Hp.
  apply In_nth_error in Hp. destruct Hp as [i Hi].
  destruct (map_from_nth _ _ _ H) as [Hlen Hnth].
  assert (i < List.length data)%nat as Hlt.
  { rewrite <- Hlen. apply nth_error_Some. congruence. }
  destruct (nth_error data i) as [raw|] eqn:Er.
  2:{ apply nth_error_None in Er. lia. }
  destruct (Hnth i raw Er) as (p' & Hp' & Hn).
  assert (p' = p) by congruence. subst p'.
  apply normalize_sortDate, parseYearMonth_range in Hn. lia.
Qed.

End NormalizeFacts.

Section LoadTheorems.
Import Js DateParser Loader.

(** C7, as the claim states it, fails on a project whose [date] is a
    truthy value other than a string, here the number 2024:
    [parseYearMonth] throws, and the array of projects is not built. *)
Lemma numeric_date_rejects_the_load :
  date_ok (JNum 2024) = false
  /\ map_from 0 [raw_dated (JStr "2023-05"); raw_dated (JNum 2024)]
     = Throw "TypeError: dateString.toLowerCase is not a function"
  /\ loadProjects [raw_dated (JStr "2023-05"); raw_dated (JNum 2024)]
     = Throw "TypeError: dateString.toLowerCase is not a function".
Proof. repeat split; vm_compute; reflexivity. Qed.

(** C7 (amended): when the [date] of every raw project is missing, falsy
    or a string, normalisation rejects nothing: the list it builds has the
    length of the input array (and so has the sorted list that
    [loadProjects] stores), and the project at each position has every
    missing or falsy property replaced by its default (id index + 1,
    title "Untitled Project", category "uncategorized", type "Other", date
    "Unknown Date", empty lists for tools, skills, links and media,
    description "No description available."). *)
Theorem normalization_defaults (data : list RawProject) :
  Forall (fun raw => date_ok (raw_date raw) = true) data ->
  exists ps sorted,
    map_from 0 data = Normal ps
    /\ loadProjects data = Normal sorted
    /\ List.length ps = List.length data
    /\ List.length sorted = List.length data
    /\ forall index raw,
         nth_error data index = Some raw ->
         exists p, nth_error ps index = Some p /\ defaulted index raw p.
Proof.
  intros Hok. destruct (map_from_ok data 0 Hok) as [ps Hps].
  destruct (map_from_nth _ _ _ Hps) as [Hlen Hnth].
  exists ps, (sort ps). repeat split.
  - exact Hps.
  - unfold loadProjects. now rewrite Hps.
  - exact Hlen.
  - rewrite <- Hlen. symmetry. apply Permutation_length, sort_perm.
  - intros index raw Hraw.
    destruct (Hnth index raw Hraw) as (p & Hp & Hn).
    exists p. split; [exact Hp|]. now apply normalize_defaulted in Hn.
Qed.

Lemma normalization_defaults_witness :
  exists ps sorted,
    map_from 0 [raw_dated JNull; raw_dated (JStr "August 2024")] = Normal ps
    /\ loadProjects [raw_dated JNull; raw_dated (JStr "August 2024")]
       = Normal sorted
    /\ List.length ps = 2%nat
    /\ List.length sorted = 2%nat
    /\ forall index raw,
         nth_error [raw_dated JNull; raw_dated (JStr "August 2024")] index
         = Some raw ->
         exists p, nth_error ps index = Some p /\ defaulted index raw p.
Proof.
  apply (normalization_defaults
           [raw_dated JNull; raw_dated (JStr "August 2024")]).
  repeat constructor.
Defined.

(** C5, as the claim states it, fails: the sort compares year and month,
    not the sort key, and an unknown date (year 2000, month 1, key 0) is
    put before a date of 1999. *)
Lemma unknown_date_sorts_before_1999 :
  exists p q,
    loadProjects [raw_dated (JStr "December 1999");
                  raw_dated (JStr "Unknown Date")] = Normal [p; q]
    /\ sortKey (sortDate p) = 0
    /\ sortKey (sortDate q) = 199912
    /\ sortKey (sortDate p) < sortKey (sortDate q).
Proof.
  eexists _, _. split; [vm_compute; reflexivity|].
  repeat split.
Qed.

(** C5 (amended): after a successful load the list is sorted descending
    by the (year, month) of the parsed date: of two positions i < j, the
    project at i is in a later year, or in the same year and in a month
    that is not earlier.  When the sort keys of both are year * 100 + month
    (the dates that matched the month-name or the numeric format), the
    project at i has a sort key greater than or equal to that of the
    project at j.  Nothing is said of the relative order of projects with
    equal year and month. *)
Theorem loaded_projects_sorted (data : list RawProject) (ps : list Project) :
  loadProjects data = Normal ps ->
  forall i j p q,
    (i < j)%nat ->
    nth_error ps i = Some p ->
    nth_error ps j = Some q ->
    newer_or_same (sortDate p) (sortDate q)
    /\ (sortKey (sortDate p)
          = year (sortDate p) * 100 + month (sortDate p) ->
        sortKey (sortDate q)
          = year (sortDate q) * 100 + month (sortDate q) ->
        sortKey (sortDate p) >= sortKey (sortDate q)).
Proof.
  unfold loadProjects. intros H i j p q Hij Hp Hq.
  destruct (map_from 0 data) as [ps0|] eqn:E; [|discriminate].
  simpl in H. injection H as <-.
  assert (Hord : newer_or_same (sortDate p) (sortDate q)).
  { apply compare_nonpos.
    exact (StronglySorted_nth before _ (sort_sorted ps0) i j p q Hij Hp Hq). }
  split; [exact Hord|]. intros Kp Kq.
  assert (Hrange : Forall (fun p => 0 <= month (sortDate p) <= 99) (sort ps0)).
  { eapply Permutation_Forall; [apply sort_perm|].
    eapply map_from_range; eauto. }
  rewrite Forall_forall in Hrange.
  pose proof (Hrange p (nth_error_In _ _ Hp)).
  pose proof (Hrange q (nth_error_In _ _ Hq)).
  unfold newer_or_same in Hord. lia.
Qed.

Lemma loaded_projects_sorted_witness :
  exists p q,
    loadProjects [raw_dated (JStr "2023-05"); raw_dated (JStr "August 2024")]
    = Normal [p; q]
    /\ newer_or_same (sortDate p) (sortDate q)
    /\ sortKey (sortDate p) >= sortKey (sortDate q).
Proof.
  eexists _, _. split; [vm_compute; reflexivity|].
  pose proof (loaded_projects_sorted
                [raw_dated (JStr "2023-05"); raw_dated (JStr "August 2024")]
                _ eq_refl 0 1 _ _ (le_n 1) eq_refl eq_refl) as [H1 H2].
  split; [exact H1 | exact (H2 eq_refl eq_refl)].
Defined.

End LoadTheorems.

(** ** Filtering *)

Section FilterFacts.
Import Js Loader Filter.

Lemma filter_twice (f g : Project -> bool) (l : list Project) :
  filter g (filter f l) = filter (fun p => f p && g p) l.
Proof.
  induction l as [|p l IH]; simpl; [reflexivity|].
  destruct (f p); simpl; [destruct (g p)|]; now rewrite IH.
Qed.

Lemma filter_all (f : Project -> bool) (l : list Project) :
  (forall p, f p = true) -> filter f l = l.
Proof.
  intros H. induction l as [|p l IH]; simpl; [reflexivity|].
  now rewrite H, IH.
Qed.

Lemma filter_subsequence (f : Project -> bool) (l : list Project) :
  subsequence (filter f l) l.
Proof.
  induction l as [|p l IH]; simpl; [constructor|].
  destruct (f p); now constructor.
Qed.

Lemma filtered_is_selected (st : State) :
  filteredProjects (filterProjects st)
  = filter (selected (currentCategory st) (currentType st)) (projects st).
Proof.
  unfold filterProjects, selected. cbn [filteredProjects].
  destruct (String.eqb (currentCategory st) "all");
    destruct (String.eqb (currentType st) "all"); cbn [negb orb].
  - symmetry. now apply filter_all.
  - apply filter_ext. intros p. reflexivity.
  - apply filter_ext. intros p. now rewrite andb_true_r.
  - rewrite filter_twice. apply filter_ext. intros p. reflexivity.
Qed.

(** C4: filtering is a function of the full list, the category and the
    type: a project is in the filtered list exactly when it is in the full
    list and (the category is "all" or is the project's) and (the type is
    "all" or is the project's); the filtered list keeps the order of the
    full list; with both filters "all" it is the full list; filtering
    again with the same state gives the same list; and neither the full
    list nor the filter state is changed. *)
Theorem filterProjects_spec (st : State) :
  filteredProjects (filterProjects st)
    = filter (selected (currentCategory st) (currentType st)) (projects st)
  /\ (forall p,
        In p (filteredProjects (filterProjects st))
        <-> In p (projects st)
            /\ selected (currentCategory st) (currentType st) p = true)
  /\ subsequence (filteredProjects (filterProjects st)) (projects st)
  /\ (currentCategory st = "all" -> currentType st = "all" ->
      filteredProjects (filterProjects st) = projects st)
  /\ filterProjects (filterProjects st) = filterProjects st
  /\ (forall st2,
        projects st2 = projects st ->
        currentCategory st2 = currentCategory st ->
        currentType st2 = currentType st ->
        filteredProjects (filterProjects st2)
        = filteredProjects (filterProjects st))
  /\ projects (filterProjects st) = projects st
  /\ currentCategory (filterProjects st) = currentCategory st
  /\ currentType (filterProjects st) = currentType st.
Proof.
  split; [apply filtered_is_selected|].
  split.
  { intros p. rewrite filtered_is_selected. apply filter_In. }
  split.
  { rewrite filtered_is_selected. apply filter_subsequence. }
  split.
  { intros Hc Ht. rewrite filtered_is_selected, Hc, Ht.
    now apply filter_all. }
  split.
  { unfold filterProjects. reflexivity. }
  split.
  { intros st2 Hp Hc Ht. rewrite !filtered_is_selected.
    now rewrite Hp, Hc, Ht. }
  repeat split.
Qed.

Lemma filterProjects_spec_witness :
  filteredProjects (filterProjects sample_state)
  = [ sample_project "video" "Short" [];
      sample_project "video" "Long" [JNull; JNull] ]
  /\ filteredProjects (clearFilters sample_state) = projects sample_state.
Proof.
  split.
  - rewrite (proj1 (filterProjects_spec sample_state)). reflexivity.
  - exact (proj1 (proj2 (proj2 (proj2
             (filterProjects_spec (with_filters "all" "all" sample_state)))))
             eq_refl eq_refl).
Defined.

End FilterFacts.

(** ** The modal *)

Section ModalFacts.
Import Js Loader Filter Modal.

Lemma open_ok p st : media_index_ok (openProjectModal p st).
Proof.
  unfold media_index_ok, openProjectModal, with_modal, media_length.
  cbn [currentProject currentMediaIndex].
  split; [lia|]. destruct (media p) as [|m l]; [right; auto | left].
  change (List.length (m :: l)) with (S (List.length l)). lia.
Qed.

Lemma next_ok st : media_index_ok st -> media_index_ok (nextMedia st).
Proof.
  unfold media_index_ok, nextMedia.
  destruct (currentProject st) as [p|] eqn:E; [|now rewrite E].
  destruct (Z.ltb_spec (currentMediaIndex st) (media_length p - 1)).
  - simpl. intros [H0 _]. split; [lia | left; lia].
  - now rewrite E.
Qed.

Lemma prev_ok st : media_index_ok st -> media_index_ok (prevMedia st).
Proof.
  unfold media_index_ok, prevMedia.
  destruct (Z.ltb_spec 0 (currentMediaIndex st)); [|auto].
  simpl. destruct (currentProject st) as [p|]; [|auto].
  intros [H0 [H1 | [_ H1]]]; [split; [lia | left; lia] | lia].
Qed.

Lemma close_ok st : media_index_ok (closeModal st).
Proof. exact I. Qed.

Lemma perform_ok a st : media_index_ok st -> media_index_ok (perform a st).
Proof.
  destruct a; simpl; intros H.
  - apply open_ok.
  - now apply next_ok.
  - now apply prev_ok.
  - apply close_ok.
Qed.

Lemma run_ok acts : forall st,
  media_index_ok st -> media_index_ok (run acts st).
Proof.
  induction acts as [|a acts IH]; intros st H; simpl; [exact H|].
  apply IH. now apply perform_ok.
Qed.

(** C6, as the claim states it, fails when the opened project has no
    media: [openProjectModal] sets the index to 0, and [0, -1] is
    empty. *)
Lemma index_outside_empty_media :
  exists p,
    currentProject (openProjectModal (sample_project "video" "Short" [])
                                     initial) = Some p
    /\ media_length p - 1
       < currentMediaIndex (openProjectModal
                              (sample_project "video" "Short" []) initial).
Proof. eexists. split; [reflexivity | vm_compute; reflexivity]. Qed.

(** C6 (amended): whenever a project is open, the media index lies within
    [0, media.length - 1] if the project has media and is 0 if it has
    none; this holds initially, is preserved by opening the modal,
    [nextMedia], [prevMedia] and closing the modal, and so holds after any
    sequence of them.  For a project with media it is the invariant of the
    claim. *)
Theorem media_index_invariant :
  media_index_ok initial
  /\ (forall a st, media_index_ok st -> media_index_ok (perform a st))
  /\ (forall acts, media_index_ok (run acts initial))
  /\ (forall st p,
        media_index_ok st -> currentProject st = Some p -> media p <> [] ->
        index_in_media st).
Proof.
  split; [exact I|]. split; [exact perform_ok|].
  split; [intros acts; now apply run_ok|].
  unfold media_index_ok, index_in_media. intros st p H E Hne.
  rewrite E in *. destruct H as [H0 [H1 | [H1 _]]]; [auto | contradiction].
Qed.

Lemma media_index_invariant_witness :
  index_in_media
    (run [Open (sample_project "video" "Long" [JNull; JNull]); Next; Next; Prev]
         initial)
  /\ currentMediaIndex
       (run [Open (sample_project "video" "Long" [JNull; JNull]); Next; Next]
            initial) = 1.
Proof.
  split; [|reflexivity].
  refine (proj2 (proj2 (proj2 media_index_invariant))
            (run [Open (sample_project "video" "Long" [JNull; JNull]);
                  Next; Next; Prev] initial)
            (sample_project "video" "Long" [JNull; JNull]) _ eq_refl _).
  - apply (proj1 (proj2 (proj2 media_index_invariant))).
  - discriminate.
Defined.

End ModalFacts.

(** ** Lazy loading *)

Section LazyLoadFacts.
Import LazyLoad.

Lemma forEach_from_nth (sel : Element -> bool) f :
  forall doc0 doc k i e0 e,
    List.length doc0 = List.length doc ->
    nth_error doc0 i = Some e0 ->
    nth_error doc i = Some e ->
    nth_error (forEach_from k (map sel doc0) f doc) i
    = Some (if sel e0 then f (k + i)%nat e else e).
Proof.
  induction doc0 as [|d0 doc0 IH]; intros doc k i e0 e Hlen H0 H.
  - destruct i; discriminate.
  - destruct doc as [|d doc]; [discriminate|]. simpl.
    destruct i as [|i]; simpl in *.
    + injection H0 as <-. injection H as <-. now rewrite Nat.add_0_r.
    + replace (k + S i)%nat with (S k + i)%nat by lia.
      apply IH; auto.
Qed.

Lemma forEach_from_length nodes f : forall doc k,
  List.length (forEach_from k nodes f doc) = List.length doc.
Proof.
  induction nodes as [|b nodes IH]; intros [|d doc] k; simpl; auto.
Qed.

Lemma forEach_nth (sel : Element -> bool) f doc0 doc i e0 e :
  List.length doc0 = List.length doc ->
  nth_error doc0 i = Some e0 ->
  nth_error doc i = Some e ->
  nth_error (forEach (map sel doc0) f doc) i
  = Some (if sel e0 then f i e else e).
Proof. apply forEach_from_nth. Qed.

(** Both passes work element by element. *)
Lemma initLazyLoading_nth v layout pg i e :
  nth_error (dom pg) i = Some e ->
  nth_error (dom (initLazyLoading v layout pg)) i
  = Some (init_element v (layout i) e).
Proof.
  intros H. unfold initLazyLoading. cbv zeta. cbn [dom].
  pose proof (forEach_nth is_lazy_image (loadIfVisible loadImage v layout)
                (dom pg) (dom pg) i e e eq_refl H H) as H1.
  pose proof (forEach_nth is_placeholder (loadIfVisible loadIframe v layout)
                (dom pg) _ i e _
                (eq_sym (forEach_from_length _ _ _ _)) H H1) as H2.
  unfold forEach in *. rewrite H2.
  unfold init_element, loadIfVisible.
  destruct (is_lazy_image e), (is_placeholder e),
    (isInViewport v (layout i)); reflexivity.
Qed.

Lemma lazyLoadHandler_nth v layout doc i e :
  nth_error doc i = Some e ->
  nth_error (lazyLoadHandler v layout doc) i
  = Some (handler_element v (layout i) e).
Proof.
  intros H. unfold lazyLoadHandler. cbv zeta.
  pose proof (forEach_nth (fun e => is_lazy_image e && has_data_src e)
                (loadIfVisible loadImage v layout)
                doc doc i e e eq_refl H H) as H1.
  pose proof (forEach_nth (fun e => is_placeholder e && has_data_src e)
                (loadIfVisible loadIframe v layout)
                doc _ i e _
                (eq_sym (forEach_from_length _ _ _ _)) H H1) as H2.
  unfold forEach in *. rewrite H2.
  unfold handler_element, loadIfVisible.
  destruct (is_lazy_image e), (is_placeholder e), (has_data_src e),
    (isInViewport v (layout i)); reflexivity.
Qed.

End LazyLoadFacts.

Section LazyLoadTheorems.
Import Js LazyLoad.

Lemma class_removed (c : string) (l : list string) :
  existsb (String.eqb c) (filter (fun x => negb (String.eqb x c)) l) = false.
Proof.
  induction l as [|x l IH]; simpl; [reflexivity|].
  destruct (String.eqb x c) eqn:E; simpl; [exact IH|].
  rewrite String.eqb_sym, E. exact IH.
Qed.

Lemma class_of_filtered (c : string) (g : string -> bool) (l : list string) :
  existsb (String.eqb c) (filter g l) = true ->
  existsb (String.eqb c) l = true.
Proof.
  induction l as [|x l IH]; simpl; [auto|].
  destruct (g x); simpl.
  - destruct (String.eqb c x); simpl; auto.
  - intros H. rewrite (IH H). apply orb_true_r.
Qed.

Lemma waiting_data_src e :
  waiting e = true ->
  exists s, data_src e = Some s /\ String.eqb s "" = false
            /\ has_data_src e = true
            /\ (is_lazy_image e = true \/
                (is_lazy_image e = false /\ is_placeholder e = true)).
Proof.
  unfold waiting, has_data_src. intros H.
  apply andb_true_iff in H. destruct H as [Hk Hs].
  destruct (data_src e) as [s|]; [|discriminate].
  exists s. apply negb_true_iff in Hs. repeat split; auto.
  destruct (is_lazy_image e); simpl in Hk; auto.
Qed.

Lemma loadImage_activates e s :
  data_src e = Some s -> String.eqb s "" = false ->
  is_lazy_image e = true ->
  activated_from e (loadImage e)
  /\ loadIframe (loadImage e) = loadImage e.
Proof.
  intros Hs Hne Himg. unfold loadImage. rewrite Hs, Hne.
  split; [|reflexivity].
  unfold activated_from. rewrite Himg, Hs. cbn [data_src src tag].
  repeat split.
  - unfold is_lazy_image in Himg. apply andb_true_iff in Himg.
    destruct (tag e); try reflexivity; destruct Himg; discriminate.
  - unfold has_class. cbn [classList]. apply class_removed.
Qed.

Lemma loadIframe_activates e s :
  data_src e = Some s -> String.eqb s "" = false ->
  is_lazy_image e = false ->
  activated_from e (loadIframe e).
Proof.
  intros Hs Hne Himg. unfold loadIframe. rewrite Hs, Hne.
  unfold activated_from. rewrite Himg, Hs. cbn [data_src src tag].
  repeat split.
Qed.

Lemma init_element_activates v rect e :
  waiting e = true -> isInViewport v rect = true ->
  activated_from e (init_element v rect e).
Proof.
  intros Hw Hin. destruct (waiting_data_src e Hw)
    as (s & Hs & Hne & _ & [Himg | [Himg Hph]]).
  - destruct (loadImage_activates e s Hs Hne Himg) as [Ha Hi].
    unfold init_element. rewrite Himg, Hin. cbn [andb].
    rewrite Hi. now destruct (is_placeholder e).
  - unfold init_element. rewrite Himg, Hph, Hin. cbn [andb].
    now apply (loadIframe_activates e s).
Qed.

Lemma handler_element_activates v rect e :
  waiting e = true -> isInViewport v rect = true ->
  activated_from e (handler_element v rect e).
Proof.
  intros Hw Hin. destruct (waiting_data_src e Hw)
    as (s & Hs & Hne & Hd & [Himg | [Himg Hph]]).
  - destruct (loadImage_activates e s Hs Hne Himg) as [Ha Hi].
    unfold handler_element. rewrite Himg, Hd, Hin. cbn [andb].
    rewrite Hi. now destruct (is_placeholder e).
  - unfold handler_element. rewrite Himg, Hph, Hd, Hin. cbn [andb].
    now apply (loadIframe_activates e s).
Qed.

(** Activation never makes an element lazy. *)
Lemma loadImage_not_lazier e :
  is_lazy_image (loadImage e) || is_placeholder (loadImage e) = true ->
  is_lazy_image e || is_placeholder e = true.
Proof.
  unfold loadImage. destruct (data_src e) as [s|]; [|auto].
  destruct (String.eqb s ""); [auto|].
  unfold is_lazy_image, is_placeholder, has_class. cbn [tag classList].
  rewrite class_removed, andb_false_r. cbn [orb].
  intros H. apply orb_true_iff in H. apply orb_true_iff. right.
  apply orb_true_iff.
  destruct H as [H|H]; apply class_of_filtered in H; auto.
Qed.

Lemma loadIframe_not_lazier e :
  is_lazy_image (loadIframe e) || is_placeholder (loadIframe e) = true ->
  is_lazy_image e || is_placeholder e = true.
Proof.
  unfold loadIframe. destruct (data_src e) as [s|]; [|auto].
  destruct (String.eqb s ""); [auto|]. discriminate.
Qed.

Lemma init_element_not_lazier v rect e :
  is_lazy_image (init_element v rect e)
  || is_placeholder (init_element v rect e) = true ->
  is_lazy_image e || is_placeholder e = true.
Proof.
  unfold init_element.
  destruct (is_lazy_image e && isInViewport v rect);
    destruct (is_placeholder e && isInViewport v rect); intros H; auto.
  - now apply loadImage_not_lazier, loadIframe_not_lazier.
  - now apply loadImage_not_lazier.
  - now apply loadIframe_not_lazier.
Qed.

Lemma initLazyLoading_length v layout pg :
  List.length (dom (initLazyLoading v layout pg)) = List.length (dom pg).
Proof.
  unfold initLazyLoading, forEach. cbv zeta. cbn [dom].
  now rewrite !forEach_from_length.
Qed.

Lemma existsb_map_true (sel : Element -> bool) doc e :
  In e doc -> sel e = true -> existsb (fun b => b) (map sel doc) = true.
Proof.
  intros Hin Hs. apply existsb_exists. exists true. split; [|reflexivity].
  rewrite <- Hs. now apply in_map.
Qed.

Lemma initLazyLoading_listening v layout pg :
  listening (initLazyLoading v layout pg).
Proof.
  intros e' Hin Hlazy. apply In_nth_error in Hin. destruct Hin as [i Hi].
  assert (i < List.length (dom pg))%nat as Hlt.
  { rewrite <- (initLazyLoading_length v layout pg).
    apply nth_error_Some. congruence. }
  destruct (nth_error (dom pg) i) as [e|] eqn:He.
  2:{ apply nth_error_None in He. lia. }
  rewrite (initLazyLoading_nth v layout pg i e He) in Hi.
  injection Hi as <-. apply init_element_not_lazier in Hlazy.
  unfold initLazyLoading. cbv zeta. cbn [scrollListener].
  apply nth_error_In in He. apply orb_true_iff in Hlazy.
  destruct Hlazy as [Hl|Hl].
  - now rewrite (existsb_map_true is_lazy_image _ e He Hl).
  - rewrite (existsb_map_true is_placeholder _ e He Hl), orb_true_r.
    reflexivity.
Qed.

Lemma initLazyLoading_keeps_listener v layout pg :
  scrollListener pg = true ->
  scrollListener (initLazyLoading v layout pg) = true.
Proof.
  intros H. unfold initLazyLoading. cbv zeta. cbn [scrollListener].
  rewrite H. now destruct (_ || _).
Qed.

(** A render in which every card is built ends in [initLazyLoading]. *)
Lemma renderProjects_completed emptyState built cards v layout pg :
  built <> [] ->
  appendCards built = (cards, Normal tt) ->
  renderProjects emptyState built v layout pg
  = (initLazyLoading v layout
       {| dom := cards; scrollListener := scrollListener pg |}, Normal tt).
Proof.
  intros Hne Hb. unfold renderProjects.
  destruct built as [|b built']; [contradiction|]. now rewrite Hb.
Qed.

Lemma appendCards_nonempty built cards r e :
  appendCards built = (cards, r) -> In e cards -> built <> [].
Proof.
  intros Hb Hin ->. cbn in Hb. injection Hb as <- _. destruct Hin.
Qed.

Lemma renderProjects_keeps_listener emptyState built v layout pg :
  scrollListener pg = true ->
  scrollListener (fst (renderProjects emptyState built v layout pg)) = true.
Proof.
  intros H. unfold renderProjects. destruct built as [|b built'].
  - now destruct emptyState.
  - destruct (appendCards (b :: built')) as [cards [[]|e]]; cbn [fst].
    + now apply initLazyLoading_keeps_listener.
    + exact H.
Qed.

(** The scroll listener is never removed. *)
Lemma later_keeps_listener pg pg' :
  later pg pg' -> scrollListener pg = true -> scrollListener pg' = true.
Proof.
  induction 1 as [| emptyState built v layout pg' _ IH | pg' _ IH
                  | v layout pg' _ IH]; intros H.
  - exact H.
  - apply renderProjects_keeps_listener. now apply IH.
  - cbn [showPanel scrollListener]. now apply IH.
  - unfold onScroll. rewrite (IH H). reflexivity.
Qed.

End LazyLoadTheorems.

Section LazyLoadClaims.
Import Js LazyLoad.

(** C8, as the claim states it, fails: a lazy image whose bounding box
    intersects the viewport without lying inside it (here it sticks out
    100 pixels at the top) is left as it is, by a render that builds its
    card and by the scroll events after it. *)
Lemma half_scrolled_image_stays_lazy :
  intersects_viewport window1200x800 rect_half_scrolled = true
  /\ isInViewport window1200x800 rect_half_scrolled = false
  /\ waiting (lazy_img "a.png") = true
  /\ renderProjects (Normal tt) [Normal [lazy_img "a.png"]] window1200x800
                    (fun _ => rect_half_scrolled) start
     = ({| dom := [lazy_img "a.png"]; scrollListener := true |}, Normal tt)
  /\ onScroll window1200x800 (fun _ => rect_half_scrolled)
              {| dom := [lazy_img "a.png"]; scrollListener := true |}
     = {| dom := [lazy_img "a.png"]; scrollListener := true |}.
Proof. repeat split; vm_compute; reflexivity. Qed.

(** A render that an exception of [createProjectElement] ends does not
    reach [initLazyLoading]: the placeholder of a card built before the
    exception stays as it is although it lies inside the viewport, and
    without an earlier registration of the listener the scroll events
    leave it too. *)
Lemma aborted_render_activates_nothing :
  renderProjects (Normal tt)
                 [Normal [placeholder "b"];
                  Throw "TypeError: includes is not a function"]
                 window1200x800 (fun _ => rect_inside) start
  = ({| dom := [placeholder "b"]; scrollListener := false |},
     Throw "TypeError: includes is not a function")
  /\ onScroll window1200x800 (fun _ => rect_inside)
              {| dom := [placeholder "b"]; scrollListener := false |}
     = {| dom := [placeholder "b"]; scrollListener := false |}.
Proof. split; reflexivity. Qed.

(** C8 (amended): on every render in which every card is built, so that
    [initLazyLoading] runs, and on every scroll event once
    [lazyLoadHandler] listens to scroll, every lazy element whose bounding
    box lies entirely inside the viewport (top and left not negative,
    bottom and right within the height and width of the window) is
    activated: a lazy image gets its [src] from [data-src], loses
    [data-src] and the class, and a placeholder is replaced by an [iframe]
    with that [src].  The handler listens from the first such render whose
    cards hold a lazy image or a placeholder, and it is never removed,
    whatever renders, panels and scroll events follow.  The bounding boxes
    are those of the layout in which the handler runs. *)
Theorem visible_lazy_elements_activated :
  (forall emptyState built cards v layout pg i e,
      appendCards built = (cards, Normal tt) ->
      nth_error cards i = Some e ->
      waiting e = true ->
      isInViewport v (layout i) = true ->
      exists e',
        nth_error
          (dom (fst (renderProjects emptyState built v layout pg))) i
        = Some e'
        /\ activated_from e e')
  /\ (forall pg v layout i e,
        scrollListener pg = true ->
        nth_error (dom pg) i = Some e ->
        waiting e = true ->
        isInViewport v (layout i) = true ->
        exists e',
          nth_error (dom (onScroll v layout pg)) i = Some e'
          /\ activated_from e e')
  /\ (forall emptyState built cards v layout pg e,
        appendCards built = (cards, Normal tt) ->
        In e cards ->
        is_lazy_image e || is_placeholder e = true ->
        scrollListener (fst (renderProjects emptyState built v layout pg))
        = true)
  /\ (forall pg pg',
        later pg pg' -> scrollListener pg = true ->
        scrollListener pg' = true).
Proof.
  split; [|split; [|split]].
  - intros emptyState built cards v layout pg i e Hb He Hw Hin.
    exists (init_element v (layout i) e). split.
    + rewrite (renderProjects_completed emptyState built cards); auto.
      * cbn [fst]. now apply initLazyLoading_nth.
      * eapply appendCards_nonempty; eauto. eapply nth_error_In; eauto.
    + now apply init_element_activates.
  - intros pg v layout i e Hl He Hw Hin.
    exists (handler_element v (layout i) e). split.
    + unfold onScroll. rewrite Hl. cbn [dom].
      now apply lazyLoadHandler_nth.
    + now apply handler_element_activates.
  - intros emptyState built cards v layout pg e Hb Hin Hlazy.
    rewrite (renderProjects_completed emptyState built cards); auto.
    + cbn [fst].
      set (pg1 := {| dom := cards; scrollListener := scrollListener pg |}).
      unfold initLazyLoading. cbv zeta. cbn [scrollListener].
      apply orb_true_iff in Hlazy. destruct Hlazy as [Hl|Hl].
      * now rewrite (existsb_map_true is_lazy_image (dom pg1) e Hin Hl).
      * rewrite (existsb_map_true is_placeholder (dom pg1) e Hin Hl),
          orb_true_r. reflexivity.
    + eapply appendCards_nonempty; eauto.
  - exact later_keeps_listener.
Qed.

Lemma visible_lazy_elements_activated_witness :
  (exists e',
      nth_error
        (dom (fst (renderProjects (Normal tt)
                     [Normal [lazy_img "a.png"]; Normal [placeholder "b"]]
                     window1200x800 (fun _ => rect_inside) start))) 1
      = Some e'
      /\ activated_from (placeholder "b") e')
  /\ (exists e',
        nth_error
          (dom (onScroll window1200x800 (fun _ => rect_inside)
                  {| dom := [lazy_img "a.png"; placeholder "b"];
                     scrollListener := true |})) 0
        = Some e'
        /\ activated_from (lazy_img "a.png") e')
  /\ scrollListener
       (fst (renderProjects (Normal tt)
               [Normal [lazy_img "a.png"]; Normal [placeholder "b"]]
               window1200x800 (fun _ => rect_half_scrolled) start))
     = true
  /\ scrollListener
       (onScroll window1200x800 (fun _ => rect_inside)
          (fst (renderProjects (Normal tt)
                  [Normal [placeholder "b"]; Throw "TypeError"]
                  window1200x800 (fun _ => rect_inside)
                  {| dom := []; scrollListener := true |})))
     = true.
Proof.
  destruct visible_lazy_elements_activated as (Hrender & Hscroll & Hadd & Hstay).
  split; [|split; [|split]].
  - apply (Hrender (Normal tt)
             [Normal [lazy_img "a.png"]; Normal [placeholder "b"]]
             [lazy_img "a.png"; placeholder "b"]); reflexivity.
  - apply Hscroll; reflexivity.
  - apply (Hadd (Normal tt)
             [Normal [lazy_img "a.png"]; Normal [placeholder "b"]]
             [lazy_img "a.png"; placeholder "b"] _ _ _ (placeholder "b")).
    + reflexivity.
    + right. left. reflexivity.
    + reflexivity.
  - apply (Hstay {| dom := []; scrollListener := true |}).
    + apply later_scroll, later_render, later_now.
    + reflexivity.
Defined.

Lemma init_element_fixed v rect e :
  data_src e = None -> init_element v rect e = e.
Proof.
  intros H. unfold init_element, loadImage, loadIframe. rewrite H.
  destruct (is_lazy_image e && isInViewport v rect);
    destruct (is_placeholder e && isInViewport v rect);
    rewrite ?H; reflexivity.
Qed.

Lemma handler_element_fixed v rect e :
  data_src e = None -> handler_element v rect e = e.
Proof.
  intros H. unfold handler_element, has_data_src. rewrite H.
  now rewrite !andb_false_r.
Qed.

Lemma step_keeps_activated pg pg' i e :
  step pg pg' ->
  nth_error (dom pg) i = Some e -> data_src e = None ->
  nth_error (dom pg') i = Some e.
Proof.
  intros [v layout pg0 | v layout pg0] He Hd.
  - unfold onScroll. destruct (scrollListener pg0); [|exact He].
    cbn [dom]. rewrite (lazyLoadHandler_nth v layout _ i e He).
    now rewrite handler_element_fixed.
  - rewrite (initLazyLoading_nth v layout _ i e He).
    now rewrite init_element_fixed.
Qed.

(** C9: activation is one-way.  Once the element at some position of the
    document is the activated form of a lazy element, every sequence of
    steps of the lazy loader (scroll events, further passes of
    [initLazyLoading], with any window size and any geometry) leaves that
    very element at that position: it has no [data-src], its [src] is still
    the URL, an [iframe] is still an [iframe], and it is not waiting for
    activation again. *)
Theorem activation_is_one_way (pg pg' : Page) :
  steps pg pg' ->
  forall i e0 e,
    nth_error (dom pg) i = Some e ->
    activated_from e0 e ->
    nth_error (dom pg') i = Some e
    /\ data_src e = None
    /\ waiting e = false.
Proof.
  induction 1 as [pg | pg1 pg2 pg3 Hstep _ IH]; intros i e0 e He Ha.
  - destruct Ha as (Hd & _). repeat split; auto.
    unfold waiting. rewrite Hd. apply andb_false_r.
  - apply (IH i e0 e); [|exact Ha].
    destruct Ha as (Hd & _). eapply step_keeps_activated; eauto.
Qed.

Lemma activation_is_one_way_witness :
  nth_error
    (dom (onScroll window1200x800 (fun _ => rect_half_scrolled)
            (initLazyLoading window1200x800 (fun _ => rect_half_scrolled)
               (fst (renderProjects (Normal tt) [Normal [placeholder "b"]]
                                    window1200x800
                                    (fun _ => rect_inside) start))))) 0
  = Some {| tag := IFRAME; classList := []; data_src := None;
            data_thumb_id := None; src := "b" |}
  /\ data_src {| tag := IFRAME; classList := []; data_src := None;
                 data_thumb_id := None; src := "b" |} = None
  /\ waiting {| tag := IFRAME; classList := []; data_src := None;
                data_thumb_id := None; src := "b" |} = false.
Proof.
  apply (activation_is_one_way
           (fst (renderProjects (Normal tt) [Normal [placeholder "b"]]
                                window1200x800 (fun _ => rect_inside) start))
           _
           (steps_next _ _ _ (step_check _ _ _)
              (steps_next _ _ _ (step_scroll _ _ _) (steps_refl _)))
           0%nat (placeholder "b")).
  - reflexivity.
  - repeat split.
Defined.

End LazyLoadClaims.

(** ** Further properties of the loader and of the date parser *)

Section FurtherFacts.
Import Js Regex DateParser Loader.

(** [exec] succeeds exactly when some substring of the input matches. *)
Lemma exec_some_iff ci r s :
  exec ci r s <> None
  <-> exists pre w post m,
        s = (pre ++ w ++ post)%string /\ matches ci (Group 0 r) w [] m.
Proof.
  split.
  - destruct (exec ci r s) as [m|] eqn:E; [|congruence].
    intros _. destruct (exec_sound _ _ _ _ E) as (pre & w & post & Hs & M).
    eauto 6.
  - intros (pre & w & post & m & -> & M). eapply exec_complete; eauto.
Qed.

(** X1: on every string, the year that [parseYearMonth] returns is
    between 0 and 9999, the month between 0 and 99, and the sort key
    between 0 and 999999. *)
Theorem parseYearMonth_fields_bounded (s : string) :
  exists r : YearMonth,
    parseYearMonth (JStr s) = Normal r
    /\ 0 <= year r <= 9999
    /\ 0 <= month r <= 99
    /\ 0 <= sortKey r <= 999999.
Proof.
  exists (parseLowered (toLowerCase s)).
  split; [apply parseYearMonth_string | apply parseLowered_range].
Qed.

(** X2: [parseYearMonth] throws exactly on a truthy value that is not a
    string; on every other value of a JSON document it returns. *)
Theorem parseYearMonth_throws_iff (v : jsval) :
  (exists msg, parseYearMonth v = Throw msg)
  <-> truthy v = true /\ (forall s, v <> JStr s).
Proof.
  split.
  - intros [msg H]. destruct (date_ok v) eqn:E.
    + destruct (parseYearMonth_ok v E) as [r Hr]. congruence.
    + destruct v as [ | | b | z | s | l | fields ]; simpl in E;
        try discriminate; split; try discriminate;
        try (now apply negb_false_iff in E); reflexivity.
  - intros [Ht Hs]. apply parseYearMonth_throws.
    destruct v as [ | | b | z | s | l | fields ]; simpl in *;
      try discriminate; try (now rewrite Ht); try reflexivity.
    now destruct (Hs s).
Qed.

End FurtherFacts.

(** ** The month table always has the matched name *)

Section MonthNames.
Import Js Regex DateParser.

Lemma ascii_of_code (c : ascii) : ascii_of_N (code c) = c.
Proof. unfold code. apply ascii_N_embedding. Qed.

Lemma code_inj (a c : ascii) : code a = code c -> a = c.
Proof.
  intros H. rewrite <- (ascii_of_code a), <- (ascii_of_code c). now rewrite H.
Qed.

Ltac split_tests :=
  repeat match goal with
         | |- context [N.leb ?x ?y] => destruct (N.leb_spec x y)
         | |- context [N.eqb ?x ?y] => destruct (N.eqb_spec x y)
         end; cbn [andb orb negb].

Lemma canonicalize_capital (c : ascii) :
  (65 <= canonicalize c <= 90)%N ->
  (code c = canonicalize c \/ code c = canonicalize c + 32)%N.
Proof. unfold canonicalize, in_range. split_tests; lia. Qed.

Lemma canonicalize_small (a : ascii) :
  in_range 97 122 a = true -> canonicalize a = (code a - 32)%N.
Proof. unfold canonicalize. now intros ->. Qed.

Lemma lower_char_capital (c : ascii) :
  (65 <= code c <= 90)%N -> code (lower_char c) = (code c + 32)%N.
Proof.
  intros H. unfold lower_char, in_range.
  replace ((65 <=? code c)%N) with true by (symmetry; apply N.leb_le; lia).
  replace ((code c <=? 90)%N) with true by (symmetry; apply N.leb_le; lia).
  cbn [andb orb]. unfold code at 1. apply N_ascii_embedding. lia.
Qed.

Lemma lower_char_small (c : ascii) :
  (97 <= code c <= 122)%N -> lower_char c = c.
Proof.
  intros H. unfold lower_char, in_range.
  replace ((code c <=? 90)%N) with false by (symmetry; apply N.leb_gt; lia).
  replace ((192 <=? code c)%N) with false by (symmetry; apply N.leb_gt; lia).
  now rewrite andb_false_r.
Qed.

(** Under the [i] flag a lower-case ASCII letter of the pattern matches
    that letter and its capital, and [toLowerCase] gives the letter
    back. *)
Lemma same_char_lower (a c : ascii) :
  in_range 97 122 a = true -> same_char true a c = true -> lower_char c = a.
Proof.
  intros Ha H. unfold same_char in H. apply N.eqb_eq in H.
  rewrite (canonicalize_small a Ha) in H.
  unfold in_range in Ha. apply andb_true_iff in Ha.
  rewrite !N.leb_le in Ha.
  destruct (canonicalize_capital c) as [E|E]; [lia | |].
  - apply code_inj. rewrite lower_char_capital by lia. lia.
  - rewrite lower_char_small by lia. apply code_inj. lia.
Qed.

Lemma matches_lit_lower (name : string) : forall w caps caps',
  name <> "" ->
  all_in (in_range 97 122) name = true ->
  matches true (lit name) w caps caps' ->
  toLowerCase w = name.
Proof.
  induction name as [|a name IH]; intros w caps caps' Hne Hall M;
    [congruence|].
  simpl in Hall. apply andb_true_iff in Hall. destruct Hall as [Ha Hall].
  destruct name as [|b name].
  - simpl in M. inversion M; subst. simpl.
    now rewrite (same_char_lower a c Ha).
  - change (lit (String a (String b name)))
      with (Cat (Chr a) (lit (String b name))) in M.
    inversion M as [ | | | r1 r2 w1 w2 c0 c1 c2 M1 M2 | | | | | | ]; subst.
    inversion M1; subst. simpl.
    rewrite (same_char_lower a c Ha) by assumption.
    f_equal. eapply IH; eauto. discriminate.
Qed.

Lemma matches_alts ci (rs : list regex) : forall w caps caps',
  rs <> [] ->
  matches ci (alts rs) w caps caps' ->
  exists r, In r rs /\ matches ci r w caps caps'.
Proof.
  induction rs as [|r rs IH]; intros w caps caps' Hne M; [congruence|].
  destruct rs as [|r' rs].
  - exists r. simpl in *. auto.
  - change (alts (r :: r' :: rs)) with (Alt r (alts (r' :: rs))) in M.
    inversion M; subst.
    + exists r. simpl. auto.
    + destruct (IH w caps caps') as (r0 & Hin & M0); auto; [discriminate|].
      exists r0. split; [right; exact Hin | exact M0].
Qed.

(** A match leaves the groups alone that the expression does not hold. *)
Lemma matches_other_group ci r w caps caps' n :
  matches ci r w caps caps' ->
  has_group n r = false -> group n caps' = group n caps.
Proof.
  induction 1; simpl; intros G; try reflexivity;
    try (apply orb_false_iff in G; destruct G as [G1 G2]); auto.
  - rewrite IHmatches2, IHmatches1; auto.
  - rewrite G1. auto.
Qed.

Lemma group1_word (names rest : regex) w m :
  has_group 1 rest = false ->
  matches true (Group 0 (Cat (Group 1 names) rest)) w [] m ->
  exists w1 caps1, group 1 m = Some w1 /\ matches true names w1 [] caps1.
Proof.
  intros Hrest M.
  inversion M as [ | | | | | | | | | n r w0 c0 c1 M0 ]; subst. clear M.
  inversion M0 as [ | | | r1 r2 w1 w2 c0 c1' c2 M1 M2 | | | | | | ]; subst.
  clear M0.
  inversion M1 as [ | | | | | | | | | n r w6 c0 c6 M6 ]; subst. clear M1.
  exists w1, c6. split; [|exact M6].
  cbn [group Nat.eqb].
  rewrite (matches_other_group _ _ _ _ _ 1%nat M2 Hrest). reflexivity.
Qed.

(** Group 1 of the month-name expression is one of its alternatives, up
    to case. *)
Lemma monthYearRe_group1 s m :
  exec true monthYearRe s = Some m ->
  In (toLowerCase (text 1 m)) monthAlternatives.
Proof.
  intros H. apply exec_sound in H. destruct H as (pre & w & post & _ & M).
  apply group1_word in M; [|reflexivity].
  destruct M as (w1 & caps1 & Hg & M).
  unfold text. rewrite Hg.
  apply matches_alts in M; [|discriminate].
  destruct M as (r & Hin & Mr).
  apply in_map_iff in Hin. destruct Hin as (name & <- & Hname).
  assert (Hok : Forall (fun name => name <> ""
                           /\ all_in (in_range 97 122) name = true)
                       monthAlternatives).
  { unfold monthAlternatives. repeat constructor; discriminate. }
  rewrite Forall_forall in Hok. destruct (Hok name Hname) as [Hne Hall].
  now rewrite (matches_lit_lower name _ _ _ Hne Hall Mr).
Qed.

(** X4: when the month-name format matches, the month comes from the
    [monthNames] table, under the name that was matched; the default 1
    after the table is never used. *)
Theorem month_name_is_in_the_table (dateStr : string) :
  match exec true monthYearRe dateStr with
  | Some m =>
      In (toLowerCase (text 1 m)) monthAlternatives
      /\ lookup (toLowerCase (text 1 m)) monthNames
         = Some (month (fromMonthYear m))
      /\ 1 <= month (fromMonthYear m) <= 12
  | None => True
  end.
Proof.
  destruct (exec true monthYearRe dateStr) as [m|] eqn:E; [|exact I].
  pose proof (monthYearRe_group1 _ _ E) as Hin.
  split; [exact Hin|]. split; [|apply monthNumber_range].
  unfold fromMonthYear, monthNumber. cbn [month].
  assert (Hok : Forall (fun name =>
                          lookup name monthNames
                          = Some match lookup name monthNames with
                                 | Some v => if v =? 0 then 1 else v
                                 | None => 1
                                 end)
                       monthAlternatives).
  { unfold monthAlternatives. repeat constructor. }
  rewrite Forall_forall in Hok. now apply Hok.
Qed.

End MonthNames.

(** ** [includes] *)

Section TextFacts.
Import Text.

Lemma startsWith_iff (s p : string) :
  startsWith s p = true <-> exists r, s = (p ++ r)%string.
Proof.
  revert s. induction p as [|a p IH]; intros s; simpl.
  - split; [intros _; exists s; reflexivity | reflexivity].
  - destruct s as [|c s].
    + split; [discriminate | intros [r H]; discriminate].
    + rewrite andb_true_iff, IH. split.
      * intros [E [r ->]]. apply Ascii.eqb_eq in E. subst. eauto.
      * intros [r H]. injection H as -> ->. split; [apply Ascii.eqb_refl|].
        eauto.
Qed.

(** [s.includes(needle)] holds exactly when [needle] is a substring. *)
Lemma includes_iff (s needle : string) :
  includes s needle = true
  <-> exists a b, s = (a ++ needle ++ b)%string.
Proof.
  induction s as [|c s IH]; simpl.
  - rewrite orb_false_r, startsWith_iff. split.
    + intros [r ->]. exists "", r. reflexivity.
    + intros (a & b & H). destruct a; simpl in H.
      * eauto.
      * discriminate.
  - rewrite orb_true_iff, startsWith_iff, IH. split.
    + intros [[r ->] | (a & b & ->)].
      * exists "", r. reflexivity.
      * exists (String c a), b. reflexivity.
    + intros (a & b & H). destruct a as [|x a]; simpl in H.
      * left. eauto.
      * right. injection H as -> ->. eauto.
Qed.

Lemma includes_self_between (a needle b : string) :
  includes (a ++ needle ++ b) needle = true.
Proof. apply includes_iff. eauto. Qed.

Lemma includes_append_l (s t needle : string) :
  includes s needle = true -> includes (s ++ t) needle = true.
Proof.
  rewrite !includes_iff. intros (a & b & ->).
  exists a, (b ++ t)%string. now rewrite !append_assoc.
Qed.

Lemma includes_append_r (s t needle : string) :
  includes t needle = true -> includes (s ++ t) needle = true.
Proof.
  rewrite !includes_iff. intros (a & b & ->).
  exists (s ++ a)%string, b. now rewrite !append_assoc.
Qed.

(** A string that holds [needle] holds every part of it. *)
Lemma includes_part (s a needle b : string) :
  includes s (a ++ needle ++ b) = true -> includes s needle = true.
Proof.
  rewrite !includes_iff. intros (x & y & ->).
  exists (x ++ a)%string, (b ++ y)%string. now rewrite !append_assoc.
Qed.

End TextFacts.

(** ** The media frame *)

Section EmbedFacts.
Import Js Regex Text Embed.

Lemma withoutAutoplay_spec (src : string) :
  exists suffix,
    withoutAutoplay src = (src ++ suffix)%string
    /\ includes (withoutAutoplay src) "autoplay=" = true.
Proof.
  unfold withoutAutoplay.
  destruct (includes src "autoplay=") eqn:E; cbn [negb].
  - exists "". split; [|exact E].
    clear E. induction src; simpl; congruence.
  - unfold addParam.
    exists ((if includes src "?" then "&" else "?") ++ "autoplay=0")%string.
    split; [reflexivity|].
    apply includes_append_r, includes_append_r.
    reflexivity.
Qed.

Lemma append_empty_r (s : string) : (s ++ "")%string = s.
Proof. induction s; simpl; congruence. Qed.

(** X5: [createMediaElement] only ever appends to the [src] it found.  For
    a YouTube or Google Drive address the result holds an [autoplay=]
    parameter (the one it had, or [autoplay=0]); every other address is
    left as it is. *)
Theorem mediaSrc_appends_autoplay (now src : string) :
  exists suffix,
    mediaSrc now src = (src ++ suffix)%string
    /\ if includes src "youtube.com" || includes src "youtu.be"
          || includes src "drive.google.com"
       then includes (mediaSrc now src) "autoplay=" = true
       else suffix = "".
Proof.
  unfold mediaSrc.
  destruct (withoutAutoplay_spec src) as (sfx & Hw & Ha).
  destruct (includes src "youtube.com" || includes src "youtu.be") eqn:Ey.
  - exists sfx. cbn [orb]. auto.
  - cbn [orb]. destruct (includes src "drive.google.com") eqn:Ed.
    + cbv zeta.
      destruct (includes (withoutAutoplay src) "cachePrevent"); cbn [negb].
      * exists sfx. auto.
      * unfold addParam. rewrite Hw.
        eexists. split; [rewrite append_assoc; reflexivity|].
        rewrite <- Hw. now apply includes_append_l.
    + exists "". split; [now rewrite append_empty_r | reflexivity].
Qed.

End EmbedFacts.

Section EmbedSrcFacts.
Import Js Regex Text Embed.

Lemma rmatch_lit (p : string) : forall s caps k,
  rmatch false (lit p) (p ++ s) caps k = k s caps.
Proof.
  induction p as [|a p IH]; intros s caps k; [reflexivity|].
  destruct p as [|b p].
  - simpl. unfold same_char. now rewrite N.eqb_refl.
  - change (lit (String a (String b p)))
      with (Cat (Chr a) (lit (String b p))).
    cbn [rmatch]. change ((String a (String b p) ++ s)%string)
      with (String a (String b p ++ s)).
    unfold same_char. rewrite N.eqb_refl. apply IH.
Qed.

Lemma star_class_run p w q rest caps k r :
  all_in p w = true -> p q = false ->
  k (String q rest) caps = Some r ->
  star_class p (w ++ String q rest) caps k = Some r.
Proof.
  intros Hw Hq Hk. induction w as [|c w IH]; simpl in *.
  - now rewrite Hq.
  - apply andb_true_iff in Hw. destruct Hw as [Hc Hw].
    now rewrite Hc, (IH Hw).
Qed.

Lemma not_quote_quote q : is_quote q = true -> not_quote q = false.
Proof. unfold not_quote. now intros ->. Qed.

Lemma match_here_src (q1 q2 : ascii) (url post : string) :
  is_quote q1 = true -> is_quote q2 = true ->
  url <> "" -> all_in not_quote url = true ->
  exists whole,
    match_here false srcRe
      ("src=" ++ String q1 (url ++ String q2 post))
    = Some [(0%nat, whole); (1%nat, url)].
Proof.
  intros H1 H2 Hne Hall. destruct url as [|u url]; [congruence|].
  simpl in Hall. apply andb_true_iff in Hall. destruct Hall as [Hu Hall].
  unfold match_here, srcRe. cbn [rmatch]. rewrite rmatch_lit.
  cbn [rmatch append]. rewrite H1, Hu.
  eexists. erewrite star_class_run;
    [reflexivity | exact Hall | now apply not_quote_quote |].
  cbn beta. rewrite H2.
  change (String u (url ++ String q2 post))
    with ((String u url ++ String q2 post)%string).
  rewrite consumed_append. reflexivity.
Qed.

Lemma match_here_src_other c s :
  Ascii.eqb c "s" = false -> match_here false srcRe (String c s) = None.
Proof.
  intros H. unfold match_here, srcRe. cbn [rmatch lit].
  unfold same_char.
  destruct (N.eqb_spec (code "s") (code c)) as [E|E]; [|reflexivity].
  apply code_inj in E. subst c. discriminate.
Qed.

(** X6: for an embed markup in which [src=], a quote, a non-empty address
    without quotes and a quote follow a beginning without the letter s,
    [createMediaElement] finds exactly that address. *)
Theorem embedSrc_finds_quoted_src (pre url post : string) (q1 q2 : ascii) :
  all_in (fun c => negb (Ascii.eqb c "s")) pre = true ->
  is_quote q1 = true -> is_quote q2 = true ->
  url <> "" -> all_in not_quote url = true ->
  embedSrc (pre ++ "src=" ++ String q1 (url ++ String q2 post)) = url.
Proof.
  intros Hpre H1 H2 Hne Hall.
  destruct (match_here_src q1 q2 url post H1 H2 Hne Hall) as [whole Hm].
  unfold embedSrc.
  assert (exec false srcRe
            (pre ++ "src=" ++ String q1 (url ++ String q2 post))
          = Some [(0%nat, whole); (1%nat, url)]) as ->.
  { induction pre as [|c pre IH].
    - change (("" ++ "src=" ++ String q1 (url ++ String q2 post))%string)
        with (("src=" ++ String q1 (url ++ String q2 post))%string).
      change ("src=" ++ String q1 (url ++ String q2 post))%string
        with (String "s" ("rc=" ++ String q1 (url ++ String q2 post))).
      cbn [exec].
      change (String "s" ("rc=" ++ String q1 (url ++ String q2 post)))
        with ("src=" ++ String q1 (url ++ String q2 post))%string.
      now rewrite Hm.
    - simpl in Hpre. apply andb_true_iff in Hpre. destruct Hpre as [Hc Hpre].
      apply negb_true_iff in Hc.
      change ((String c pre ++ "src=" ++ String q1 (url ++ String q2 post))%string)
        with (String c (pre ++ "src=" ++ String q1 (url ++ String q2 post))).
      cbn [exec]. rewrite (match_here_src_other _ _ Hc). now apply IH. }
  reflexivity.
Qed.

Lemma embedSrc_finds_quoted_src_witness :
  embedSrc "<iframe width='560' height='315' src='https://youtu.be/x' allowfullscreen></iframe>"
  = "https://youtu.be/x".
Proof.
  apply (embedSrc_finds_quoted_src
           "<iframe width='560' height='315' " "https://youtu.be/x"
           " allowfullscreen></iframe>" "'" "'");
    try reflexivity; discriminate.
Defined.

(** X7: when the embed markup of a media item nowhere holds [src=],
    [createMediaElement] builds a frame whose [src] is empty. *)
Theorem createMediaElement_without_src
        (now embed : string) (index : Z) (fields : list (string * jsval)) :
  field "embed" fields = JStr embed ->
  includes embed "src=" = false ->
  exists frame,
    createMediaElement now index (JObj fields) = Normal frame
    /\ frame_src frame = "".
Proof.
  intros He Hs. unfold createMediaElement. cbn [get bind]. rewrite He.
  assert (embedSrc embed = "") as Hnone.
  { unfold embedSrc. destruct (exec false srcRe embed) as [m|] eqn:E;
      [|reflexivity].
    apply exec_sound in E. destruct E as (p & w & q & -> & M).
    unfold srcRe in M.
    inversion M as [ | | | | | | | | | n r w0 c0 c1 M0 ]; subst. clear M.
    inversion M0 as [ | | | r1 r2 w1 w2 c0 c1' c2 M1 M2 | | | | | | ]; subst.
    assert (w1 = "src=") as ->.
    { clear - M1.
      repeat match goal with
             | H : matches _ (Cat _ _) _ _ _ |- _ =>
                 inversion H; subst; clear H
             | H : matches _ (Chr _) _ _ _ |- _ =>
                 inversion H; subst; clear H
             end.
      repeat match goal with
             | H : same_char false _ _ = true |- _ =>
                 unfold same_char in H; apply N.eqb_eq, code_inj in H;
                 subst
             end.
      reflexivity. }
    rewrite append_assoc in Hs.
    rewrite (includes_self_between p "src=" (w2 ++ q)) in Hs. discriminate. }
  unfold or_else. destruct (truthy (JStr embed)); rewrite ?Hnone;
    eexists; split; reflexivity.
Qed.

Lemma createMediaElement_without_src_witness :
  exists frame,
    createMediaElement "1700000000000" 0
      (JObj [("type", JStr "image"); ("embed", JStr "<img alt='x'>")])
    = Normal frame
    /\ frame_src frame = "".
Proof.
  apply (createMediaElement_without_src "1700000000000" "<img alt='x'>" 0);
    reflexivity.
Defined.

End EmbedSrcFacts.

(** ** Navigation in the modal *)

Section ModalNavigation.
Import Js Loader Filter Modal Embed ModalView.

Lemma item_nth (l : list jsval) (i : Z) :
  0 <= i < Z.of_nat (List.length l) ->
  nth_error l (Z.to_nat i) = Some (item l i).
Proof.
  intros H. unfold item.
  destruct (Z.ltb_spec i 0); [lia|].
  apply nth_error_nth'. lia.
Qed.

(** X8: after any sequence of openings, next, previous and closings, if
    a project with media is open then the index points at one of its
    media, [media[currentMediaIndex]] is that element and never
    [undefined] for being out of range, and the counter shown lies
    between 1 and the total. *)
Theorem shown_media_exists (acts : list action) (p : Project) :
  currentProject (run acts initial) = Some p ->
  media p <> [] ->
  let i := currentMediaIndex (run acts initial) in
  0 <= i < media_length p
  /\ nth_error (media p) (Z.to_nat i) = Some (item (media p) i)
  /\ Modal.currentMediaText (run acts initial) = Some (i + 1)
  /\ 1 <= i + 1 <= media_length p.
Proof.
  intros Hp Hne i.
  pose proof (run_ok acts initial I) as Hok.
  unfold media_index_ok in Hok. rewrite Hp in Hok. fold i in Hok.
  destruct Hok as [H0 [H1 | [H1 _]]]; [|contradiction].
  assert (0 <= i < media_length p) as Hi by lia.
  split; [exact Hi|]. split; [now apply item_nth|].
  split; [|lia]. unfold Modal.currentMediaText. rewrite Hp. fold i.
  destruct (Z.ltb_spec 0 (media_length p)); [reflexivity | lia].
Qed.

Lemma shown_media_exists_witness :
  let p := sample_project "video" "Long" [JNum 7; JNum 8] in
  let s := run [Open p; Next; Next; Next] initial in
  0 <= currentMediaIndex s < media_length p
  /\ nth_error (media p) (Z.to_nat (currentMediaIndex s))
     = Some (item (media p) (currentMediaIndex s))
  /\ Modal.currentMediaText s = Some (currentMediaIndex s + 1)
  /\ 1 <= currentMediaIndex s + 1 <= media_length p.
Proof.
  exact (shown_media_exists
           [Open (sample_project "video" "Long" [JNum 7; JNum 8]);
            Next; Next; Next]
           (sample_project "video" "Long" [JNum 7; JNum 8])
           eq_refl ltac:(discriminate)).
Defined.

End ModalNavigation.

Section ModalButtons.
Import Js Loader Filter Modal Embed ModalView.

Lemma with_modal_same st :
  with_modal (currentProject st) (currentMediaIndex st) st = st.
Proof. now destruct st. Qed.

Lemma with_modal_twice cp i cp' i' st :
  with_modal cp i (with_modal cp' i' st) = with_modal cp i st.
Proof. reflexivity. Qed.

Lemma with_modal_project cp i st :
  currentProject (with_modal cp i st) = cp.
Proof. reflexivity. Qed.

Lemma nextMedia_moves st p :
  currentProject st = Some p ->
  currentMediaIndex st < media_length p - 1 ->
  nextMedia st = with_modal (Some p) (currentMediaIndex st + 1) st.
Proof.
  intros Hp H. unfold nextMedia. rewrite Hp.
  destruct (Z.ltb_spec (currentMediaIndex st) (media_length p - 1));
    [reflexivity | lia].
Qed.

Lemma nextMedia_stays st p :
  currentProject st = Some p ->
  media_length p - 1 <= currentMediaIndex st ->
  nextMedia st = st.
Proof.
  intros Hp H. unfold nextMedia. rewrite Hp.
  destruct (Z.ltb_spec (currentMediaIndex st) (media_length p - 1));
    [lia | reflexivity].
Qed.

Lemma with_modal_index cp i st :
  currentMediaIndex (with_modal cp i st) = i.
Proof. reflexivity. Qed.

Lemma media_length_empty p : media p = [] <-> media_length p = 0.
Proof.
  unfold media_length. destruct (media p); simpl; split;
    try reflexivity; try discriminate; lia.
Qed.

(** X9: the [disabled] flags that [updateModal] writes, in its first
    part [updateModalMedia], agree with what the handlers do.  In a state that keeps the index invariant, with a
    project open: the previous button is disabled exactly when
    [prevMedia] changes nothing; when the project has media, the next
    button is disabled exactly when [nextMedia] changes nothing; and when
    it has none, the next button is left enabled although [nextMedia]
    changes nothing. *)
Theorem buttons_agree_with_handlers
        (now : string) (st : State) (p : Project) (v : View) :
  media_index_ok st ->
  currentProject st = Some p ->
  updateModalMedia now st = Normal (Some v) ->
  (prevDisabled v = true <-> prevMedia st = st)
  /\ (media p <> [] -> (nextDisabled v = true <-> nextMedia st = st))
  /\ (media p = [] -> nextDisabled v = false /\ nextMedia st = st).
Proof.
  intros Hok Hp Hv.
  unfold media_index_ok in Hok. rewrite Hp in Hok.
  assert (prevDisabled v = (currentMediaIndex st =? 0)
          /\ nextDisabled v = (currentMediaIndex st =? media_length p - 1))
    as [Hprev Hnext].
  { unfold updateModalMedia in Hv. rewrite Hp in Hv. cbv zeta in Hv.
    destruct (if truthy (item (media p) (currentMediaIndex st))
              then get "embed" (item (media p) (currentMediaIndex st))
              else Normal (item (media p) (currentMediaIndex st)))
      as [embed|]; [|discriminate].
    cbn [bind] in Hv.
    destruct (if truthy embed then _ else _) as [c|]; [|discriminate].
    cbn [bind] in Hv. injection Hv as <-. split; reflexivity. }
  rewrite Hprev, Hnext, !Z.eqb_eq. split; [|split].
  - unfold prevMedia.
    destruct (Z.ltb_spec 0 (currentMediaIndex st)) as [H|H].
    + split; [lia|]. intros E.
      apply (f_equal currentMediaIndex) in E.
      rewrite with_modal_index in E. lia.
    + split; [reflexivity | lia].
  - intros Hne. rewrite media_length_empty in Hne.
    destruct Hok as [H0 [H1 | [H1 _]]];
      [|rewrite media_length_empty in H1; contradiction].
    split.
    + intros E. apply (nextMedia_stays st p Hp). lia.
    + intros E.
      destruct (Z.lt_ge_cases (currentMediaIndex st) (media_length p - 1))
        as [Hlt|Hge]; [|lia].
      rewrite (nextMedia_moves st p Hp Hlt) in E.
      apply (f_equal currentMediaIndex) in E.
      rewrite with_modal_index in E. lia.
  - intros He. rewrite media_length_empty in He.
    destruct Hok as [H0 _]. split.
    + apply Z.eqb_neq. lia.
    + apply (nextMedia_stays st p Hp). lia.
Qed.

Lemma buttons_agree_with_handlers_witness :
  exists v,
    updateModalMedia "0"
      (openProjectModal (sample_project "video" "Short" []) initial)
    = Normal (Some v)
    /\ (prevDisabled v = true
        <-> prevMedia (openProjectModal (sample_project "video" "Short" [])
                                        initial)
            = openProjectModal (sample_project "video" "Short" []) initial)
    /\ nextDisabled v = false
    /\ nextMedia (openProjectModal (sample_project "video" "Short" [])
                                   initial)
       = openProjectModal (sample_project "video" "Short" []) initial.
Proof.
  eexists. split; [reflexivity|].
  pose proof (buttons_agree_with_handlers "0"
                (openProjectModal (sample_project "video" "Short" []) initial)
                (sample_project "video" "Short" []) _
                (open_ok _ _) eq_refl eq_refl) as (H1 & _ & H3).
  split; [exact H1 | exact (H3 eq_refl)].
Defined.

(** X10: next and previous undo each other.  In a state that keeps the
    index invariant, with a project open: if [nextMedia] can move,
    [prevMedia] after it restores the state, and if [prevMedia] can move,
    [nextMedia] after it restores the state. *)
Theorem next_and_prev_undo_each_other (st : State) (p : Project) :
  media_index_ok st ->
  currentProject st = Some p ->
  (currentMediaIndex st < media_length p - 1 ->
   prevMedia (nextMedia st) = st)
  /\ (0 < currentMediaIndex st -> nextMedia (prevMedia st) = st).
Proof.
  intros Hok Hp. unfold media_index_ok in Hok. rewrite Hp in Hok.
  destruct Hok as [H0 Hup]. split.
  - intros Hlt. rewrite (nextMedia_moves st p Hp Hlt).
    unfold prevMedia. rewrite with_modal_index.
    destruct (Z.ltb_spec 0 (currentMediaIndex st + 1)); [|lia].
    rewrite with_modal_project, with_modal_twice.
    replace (currentMediaIndex st + 1 - 1) with (currentMediaIndex st) by lia.
    rewrite <- Hp. apply with_modal_same.
  - intros Hpos. unfold prevMedia.
    destruct (Z.ltb_spec 0 (currentMediaIndex st)); [|lia].
    rewrite (nextMedia_moves _ p).
    + rewrite with_modal_index, with_modal_twice.
      replace (currentMediaIndex st - 1 + 1) with (currentMediaIndex st)
        by lia.
      rewrite <- Hp. apply with_modal_same.
    + rewrite with_modal_project. exact Hp.
    + rewrite with_modal_index. destruct Hup as [H1 | [_ H1]]; lia.
Qed.

Lemma next_and_prev_undo_each_other_witness :
  let st := run [Open (sample_project "video" "Long" [JNull; JNull; JNull]);
                 Next] initial in
  prevMedia (nextMedia st) = st /\ nextMedia (prevMedia st) = st.
Proof.
  cbv zeta.
  pose proof (next_and_prev_undo_each_other
                (run [Open (sample_project "video" "Long"
                              [JNull; JNull; JNull]); Next] initial)
                (sample_project "video" "Long" [JNull; JNull; JNull])
                (run_ok [Open (sample_project "video" "Long"
                                 [JNull; JNull; JNull]); Next] initial I)
                eq_refl) as [H1 H2].
  split; [apply H1 | apply H2]; reflexivity.
Defined.

Lemma run_app acts1 acts2 st :
  run (acts1 ++ acts2) st = run acts2 (run acts1 st).
Proof. unfold run. apply fold_left_app. Qed.

Lemma repeat_next k : forall st p,
  currentProject st = Some p ->
  currentProject (run (repeat Next k) st) = Some p
  /\ currentMediaIndex (run (repeat Next k) st)
     = Z.max (currentMediaIndex st)
             (Z.min (currentMediaIndex st + Z.of_nat k)
                    (media_length p - 1)).
Proof.
  induction k as [|k IH]; intros st p Hp.
  - simpl. split; [exact Hp | lia].
  - change (run (repeat Next (S k)) st)
      with (run (repeat Next k) (nextMedia st)).
    destruct (Z.lt_ge_cases (currentMediaIndex st) (media_length p - 1))
      as [Hlt|Hge].
    + rewrite (nextMedia_moves st p Hp Hlt).
      destruct (IH (with_modal (Some p) (currentMediaIndex st + 1) st) p
                   eq_refl) as [Hc Hi].
      split; [exact Hc|]. rewrite Hi, with_modal_index. lia.
    + rewrite (nextMedia_stays st p Hp Hge).
      destruct (IH st p Hp) as [Hc Hi].
      split; [exact Hc|]. rewrite Hi. lia.
Qed.

Lemma repeat_prev k : forall st,
  0 <= currentMediaIndex st ->
  currentProject (run (repeat Prev k) st) = currentProject st
  /\ currentMediaIndex (run (repeat Prev k) st)
     = Z.max 0 (currentMediaIndex st - Z.of_nat k).
Proof.
  induction k as [|k IH]; intros st H0.
  - simpl. split; [reflexivity | lia].
  - change (run (repeat Prev (S k)) st)
      with (run (repeat Prev k) (prevMedia st)).
    unfold prevMedia.
    destruct (Z.ltb_spec 0 (currentMediaIndex st)) as [H|H].
    + destruct (IH (with_modal (currentProject st)
                               (currentMediaIndex st - 1) st))
        as [Hc Hi].
      { rewrite with_modal_index. lia. }
      split; [exact Hc|]. rewrite Hi, with_modal_index. lia.
    + destruct (IH st H0) as [Hc Hi].
      split; [exact Hc|]. rewrite Hi. lia.
Qed.

(** X11: the index stops at both ends.  From any state, opening a
    project and then pressing next [k] times and previous [j] times
    leaves that project open with the index
    max(0, max(0, min(k, media.length - 1)) - j). *)
Theorem navigation_stops_at_the_ends
        (st : State) (p : Project) (k j : nat) :
  let st' := run (Open p :: repeat Next k ++ repeat Prev j) st in
  currentProject st' = Some p
  /\ currentMediaIndex st'
     = Z.max 0 (Z.max 0 (Z.min (Z.of_nat k) (media_length p - 1))
                - Z.of_nat j).
Proof.
  cbv zeta.
  change (run (Open p :: repeat Next k ++ repeat Prev j) st)
    with (run (repeat Next k ++ repeat Prev j) (openProjectModal p st)).
  rewrite run_app.
  destruct (repeat_next k (openProjectModal p st) p eq_refl) as [Hc Hi].
  change (currentMediaIndex (openProjectModal p st)) with 0 in Hi.
  destruct (repeat_prev j (run (repeat Next k) (openProjectModal p st)))
    as [Hc' Hi'].
  { rewrite Hi. lia. }
  split; [congruence|]. rewrite Hi', Hi. lia.
Qed.

End ModalButtons.

(** ** Sequences of filter clicks *)

Section FilterClickFacts.
Import Js Loader Filter FilterClicks.

Lemma handle_state k st :
  handle k st
  = {| projects := projects st;
       filteredProjects :=
         filter (selected (categoryAfter [k] (currentCategory st))
                          (typeAfter [k] (currentType st)))
                (projects st);
       currentCategory := categoryAfter [k] (currentCategory st);
       currentType := typeAfter [k] (currentType st);
       currentProject := currentProject st;
       currentMediaIndex := currentMediaIndex st |}.
Proof.
  destruct k as [c|t|]; cbn [handle categoryAfter typeAfter fold_left];
    unfold setCategory, setType, clearFilters;
    match goal with
    | |- filterProjects ?s = _ =>
        pose proof (filtered_is_selected s) as H;
        cbn [with_filters projects currentCategory currentType] in H;
        rewrite <- H; reflexivity
    end.
Qed.

Lemma handleAll_state (k : click) (ks : list click) (st : State) :
  handleAll (k :: ks) st
  = {| projects := projects st;
       filteredProjects :=
         filter (selected (categoryAfter (k :: ks) (currentCategory st))
                          (typeAfter (k :: ks) (currentType st)))
                (projects st);
       currentCategory := categoryAfter (k :: ks) (currentCategory st);
       currentType := typeAfter (k :: ks) (currentType st);
       currentProject := currentProject st;
       currentMediaIndex := currentMediaIndex st |}.
Proof.
  revert k st. induction ks as [|k' ks IH]; intros k st.
  - apply handle_state.
  - change (handleAll (k :: k' :: ks) st)
      with (handleAll (k' :: ks) (handle k st)).
    rewrite IH, handle_state. reflexivity.
Qed.

(** X12: after any number of clicks on the filter buttons (at least one),
    the list shown is the full list filtered by the category and the type
    that were chosen last, in the order of the full list; the order in
    which category and type were chosen makes no difference, and nothing
    else of the state changes. *)
Theorem clicks_leave_the_last_choice
        (k : click) (ks : list click) (st : State) :
  handleAll (k :: ks) st
  = {| projects := projects st;
       filteredProjects :=
         filter (selected (categoryAfter (k :: ks) (currentCategory st))
                          (typeAfter (k :: ks) (currentType st)))
                (projects st);
       currentCategory := categoryAfter (k :: ks) (currentCategory st);
       currentType := typeAfter (k :: ks) (currentType st);
       currentProject := currentProject st;
       currentMediaIndex := currentMediaIndex st |}.
Proof. apply handleAll_state. Qed.

End FilterClickFacts.

(** ** What the lazy loader leaves alone *)

Section LazyFrame.
Import LazyLoad.

Lemma init_element_untouched v rect e :
  waiting e && isInViewport v rect = false -> init_element v rect e = e.
Proof.
  unfold waiting, init_element, loadImage, loadIframe. intros H.
  destruct (isInViewport v rect); rewrite ?andb_false_r; [|reflexivity].
  rewrite andb_true_r in H. rewrite !andb_true_r.
  destruct (data_src e) as [s|] eqn:Es.
  - destruct (String.eqb s "") eqn:E0.
    + destruct (is_lazy_image e), (is_placeholder e);
        rewrite ?Es, ?E0; reflexivity.
    + cbn [negb] in H. rewrite andb_true_r in H.
      apply orb_false_iff in H. destruct H as [-> ->]. reflexivity.
  - destruct (is_lazy_image e), (is_placeholder e); rewrite ?Es; reflexivity.
Qed.

Lemma handler_element_untouched v rect e :
  waiting e && isInViewport v rect = false -> handler_element v rect e = e.
Proof.
  unfold waiting, handler_element, has_data_src, loadImage, loadIframe.
  intros H.
  destruct (isInViewport v rect); rewrite ?andb_false_r; [|reflexivity].
  rewrite andb_true_r in H. rewrite !andb_true_r.
  destruct (data_src e) as [s|] eqn:Es; rewrite ?andb_false_r;
    [|reflexivity].
  rewrite !andb_true_r.
  destruct (String.eqb s "") eqn:E0.
  - destruct (is_lazy_image e), (is_placeholder e);
      rewrite ?Es, ?E0; reflexivity.
  - cbn [negb] in H. rewrite andb_true_r in H.
    apply orb_false_iff in H. destruct H as [-> ->]. reflexivity.
Qed.

Lemma lazyLoadHandler_length v layout doc :
  List.length (lazyLoadHandler v layout doc) = List.length doc.
Proof.
  unfold lazyLoadHandler, forEach. cbv zeta.
  now rewrite !forEach_from_length.
Qed.

(** X13: the lazy loader changes nothing but visible lazy elements.  A
    pass of [initLazyLoading] and a scroll event keep the number and the
    positions of the elements, and an element that is not waiting for
    activation, or whose rectangle is not inside the viewport, is left
    exactly as it is. *)
Theorem lazy_loader_frame
        (v : Viewport) (layout : Layout) (pg : Page) (i : nat) (e : Element) :
  nth_error (dom pg) i = Some e ->
  waiting e && isInViewport v (layout i) = false ->
  nth_error (dom (initLazyLoading v layout pg)) i = Some e
  /\ nth_error (dom (onScroll v layout pg)) i = Some e
  /\ List.length (dom (initLazyLoading v layout pg)) = List.length (dom pg)
  /\ List.length (dom (onScroll v layout pg)) = List.length (dom pg).
Proof.
  intros He Hw. split; [|split; [|split]].
  - rewrite (initLazyLoading_nth v layout pg i e He).
    now rewrite init_element_untouched.
  - unfold onScroll. destruct (scrollListener pg); [|exact He].
    cbn [dom]. rewrite (lazyLoadHandler_nth v layout _ i e He).
    now rewrite handler_element_untouched.
  - apply initLazyLoading_length.
  - unfold onScroll. destruct (scrollListener pg); [|reflexivity].
    cbn [dom]. apply lazyLoadHandler_length.
Qed.

Lemma lazy_loader_frame_witness :
  nth_error
    (dom (initLazyLoading window1200x800 (fun _ => rect_half_scrolled)
            {| dom := [placeholder "b"]; scrollListener := true |})) 0
  = Some (placeholder "b")
  /\ nth_error
       (dom (onScroll window1200x800 (fun _ => rect_half_scrolled)
               {| dom := [placeholder "b"]; scrollListener := true |})) 0
     = Some (placeholder "b")
  /\ List.length
       (dom (initLazyLoading window1200x800 (fun _ => rect_half_scrolled)
               {| dom := [placeholder "b"]; scrollListener := true |}))
     = 1%nat
  /\ List.length
       (dom (onScroll window1200x800 (fun _ => rect_half_scrolled)
               {| dom := [placeholder "b"]; scrollListener := true |}))
     = 1%nat.
Proof.
  apply (lazy_loader_frame window1200x800 (fun _ => rect_half_scrolled)
           {| dom := [placeholder "b"]; scrollListener := true |} 0
           (placeholder "b")); reflexivity.
Defined.

Lemma init_element_result v rect e :
  init_element v rect e = e \/ data_src (init_element v rect e) = None.
Proof.
  destruct (waiting e && isInViewport v rect) eqn:E.
  - right. apply andb_true_iff in E. destruct E as [Hw Hin].
    now destruct (init_element_activates v rect e Hw Hin).
  - left. now apply init_element_untouched.
Qed.

Lemma handler_element_result v rect e :
  handler_element v rect e = e
  \/ data_src (handler_element v rect e) = None.
Proof.
  destruct (waiting e && isInViewport v rect) eqn:E.
  - right. apply andb_true_iff in E. destruct E as [Hw Hin].
    now destruct (handler_element_activates v rect e Hw Hin).
  - left. now apply handler_element_untouched.
Qed.

Lemma nth_error_same_length (l1 l2 : list Element) :
  List.length l1 = List.length l2 ->
  (forall i e, nth_error l1 i = Some e -> nth_error l2 i = Some e) ->
  l2 = l1.
Proof.
  revert l2. induction l1 as [|a l1 IH]; intros [|b l2] Hlen H;
    try discriminate; [reflexivity|].
  pose proof (H 0%nat a eq_refl) as H0. simpl in H0. injection H0 as ->.
  f_equal. apply IH; [simpl in Hlen; lia|].
  intros i e Hi. exact (H (S i) e Hi).
Qed.

(** X14: a second run with the same geometry changes nothing: once
    [lazyLoadHandler] or [initLazyLoading] has run, running it again for
    the same window and the same rectangles returns the same document. *)
Theorem lazy_loader_idempotent
        (v : Viewport) (layout : Layout) (pg : Page) :
  lazyLoadHandler v layout (lazyLoadHandler v layout (dom pg))
  = lazyLoadHandler v layout (dom pg)
  /\ dom (initLazyLoading v layout (initLazyLoading v layout pg))
     = dom (initLazyLoading v layout pg)
  /\ onScroll v layout (onScroll v layout pg) = onScroll v layout pg.
Proof.
  assert (H1 : forall doc,
             lazyLoadHandler v layout (lazyLoadHandler v layout doc)
             = lazyLoadHandler v layout doc).
  { intros doc. apply nth_error_same_length.
    - symmetry. apply lazyLoadHandler_length.
    - intros i e' Hi.
      assert (i < List.length doc)%nat as Hlt.
      { rewrite <- (lazyLoadHandler_length v layout doc).
        apply nth_error_Some. congruence. }
      destruct (nth_error doc i) as [e|] eqn:He.
      2:{ apply nth_error_None in He. lia. }
      rewrite (lazyLoadHandler_nth v layout doc i e He) in Hi.
      injection Hi as <-.
      rewrite (lazyLoadHandler_nth v layout _ i _
                 (lazyLoadHandler_nth v layout doc i e He)).
      f_equal. destruct (handler_element_result v (layout i) e) as [E|E].
      + now rewrite !E.
      + now apply handler_element_fixed. }
  split; [apply H1|]. split.
  - apply nth_error_same_length.
    + symmetry. apply initLazyLoading_length.
    + intros i e' Hi.
      assert (i < List.length (dom pg))%nat as Hlt.
      { rewrite <- (initLazyLoading_length v layout pg).
        apply nth_error_Some. congruence. }
      destruct (nth_error (dom pg) i) as [e|] eqn:He.
      2:{ apply nth_error_None in He. lia. }
      rewrite (initLazyLoading_nth v layout pg i e He) in Hi.
      injection Hi as <-.
      rewrite (initLazyLoading_nth v layout _ i _
                 (initLazyLoading_nth v layout pg i e He)).
      f_equal. destruct (init_element_result v (layout i) e) as [E|E].
      * now rewrite !E.
      * now apply init_element_fixed.
  - unfold onScroll. destruct (scrollListener pg) eqn:E.
    + cbn [scrollListener dom]. now rewrite H1.
    + now rewrite E.
Qed.

End LazyFrame.

(** ** Category counts *)

Section CountFacts.
Import Js Loader Filter FilterClicks Counts.

Variable toKey : jsval -> string.

Lemma inherited_proto key :
  inherited key = false -> String.eqb key "__proto__" = false.
Proof.
  unfold inherited, objectPrototype. cbn [existsb].
  rewrite !orb_false_iff. tauto.
Qed.

Lemma own_put_other o key key' x :
  String.eqb key' key = false -> own key (put o key' x) = own key o.
Proof.
  intros H. unfold put. destruct (String.eqb key' "__proto__"); [reflexivity|].
  simpl. now rewrite H.
Qed.

Lemma own_put_same o key x :
  String.eqb key "__proto__" = false -> own key (put o key x) = Some x.
Proof. intros H. unfold put. rewrite H. simpl. now rewrite String.eqb_refl. Qed.

Lemma countProject_other o p key :
  String.eqb (toKey (category p)) key = false ->
  own key (countProject toKey o p) = own key o.
Proof.
  intros H. unfold countProject. cbv zeta.
  destruct (truthy (get o (toKey (category p)))); now apply own_put_other.
Qed.

Lemma countProject_same o p key n :
  inherited key = false -> 0 <= n ->
  own key o = encoded n ->
  String.eqb (toKey (category p)) key = true ->
  own key (countProject toKey o p) = encoded (n + 1).
Proof.
  intros Hi Hn Ho Hk. apply String.eqb_eq in Hk.
  unfold countProject. cbv zeta. rewrite Hk. unfold get. rewrite Ho.
  unfold encoded. destruct (Z.eqb_spec n 0) as [->|Hne].
  - rewrite Hi. cbn [truthy]. rewrite own_put_same by now apply inherited_proto.
    reflexivity.
  - cbn [truthy]. destruct (Z.eqb_spec n 0); [contradiction|]. cbn [negb succ].
    rewrite own_put_same by now apply inherited_proto.
    destruct (Z.eqb_spec (n + 1) 0); [lia | reflexivity].
Qed.

Lemma filed_cons key p ps :
  filed toKey key (p :: ps)
  = (if String.eqb (toKey (category p)) key then 1 else 0)
    + filed toKey key ps.
Proof.
  unfold filed. simpl. destruct (String.eqb (toKey (category p)) key);
    simpl List.length; lia.
Qed.

Lemma filed_nonneg key ps : 0 <= filed toKey key ps.
Proof. unfold filed. lia. Qed.

Lemma fold_counts key : forall ps o n,
  inherited key = false -> 0 <= n ->
  own key o = encoded n ->
  own key (fold_left (countProject toKey) ps o)
  = encoded (n + filed toKey key ps).
Proof.
  induction ps as [|p ps IH]; intros o n Hi Hn Ho.
  - simpl. unfold filed. simpl. now rewrite Z.add_0_r.
  - cbn [fold_left]. rewrite filed_cons.
    destruct (String.eqb (toKey (category p)) key) eqn:Hk.
    + replace (n + (1 + filed toKey key ps))
        with (n + 1 + filed toKey key ps) by lia.
      apply IH; [exact Hi | lia | now apply countProject_same].
    + replace (n + (0 + filed toKey key ps))
        with (n + filed toKey key ps) by lia.
      apply IH; [exact Hi | exact Hn | now rewrite countProject_other].
Qed.

Lemma fold_counts_all : forall ps o m,
  (ps <> [] -> 0 < m) ->
  own "all" o = Some (Num m) ->
  own "all" (fold_left (countProject toKey) ps o)
  = Some (Num (m + filed toKey "all" ps)).
Proof.
  induction ps as [|p ps IH]; intros o m Hm Ho.
  - simpl. unfold filed. simpl. now rewrite Z.add_0_r.
  - cbn [fold_left]. rewrite filed_cons.
    assert (0 < m) as Hpos by (apply Hm; discriminate).
    destruct (String.eqb (toKey (category p)) "all") eqn:Hk.
    + replace (m + (1 + filed toKey "all" ps))
        with (m + 1 + filed toKey "all" ps) by lia.
      apply IH; [intros _; lia|].
      apply String.eqb_eq in Hk. unfold countProject. cbv zeta.
      rewrite Hk. unfold get. rewrite Ho. cbn [truthy].
      destruct (Z.eqb_spec m 0); [lia|]. cbn [negb succ].
      now rewrite own_put_same.
    + replace (m + (0 + filed toKey "all" ps))
        with (m + filed toKey "all" ps) by lia.
      apply IH; [intros _; exact Hpos | now rewrite countProject_other].
Qed.

Lemma category_count_is_filed_aux
      (projects : list Project) (category : string) :
  inherited category = false ->
  category <> "all" ->
  countOf (calculateCategoryCounts toKey projects) category
  = VNumber (Num (filed toKey category projects)).
Proof.
  intros Hi Hall. unfold countOf, calculateCategoryCounts, get.
  rewrite (fold_counts category projects _ 0 Hi (Z.le_refl 0)).
  - cbn [Z.add]. unfold encoded.
    destruct (Z.eqb_spec (filed toKey category projects) 0) as [E|E].
    + rewrite Hi, E. reflexivity.
    + cbn [truthy]. destruct (Z.eqb_spec (filed toKey category projects) 0);
        [contradiction | reflexivity].
  - cbn [own]. destruct (String.eqb_spec "all" category); [congruence|].
    reflexivity.
Qed.

(** X15: for a category name other than "all" that is not a property
    name of [Object.prototype], the count that the buttons and the empty
    state use, [categoryCounts[category] || 0], is the number of projects
    filed under that category, 0 when there is none. *)
Theorem category_count_is_number_filed
        (projects : list Project) (category : string) :
  inherited category = false ->
  category <> "all" ->
  countOf (calculateCategoryCounts toKey projects) category
  = VNumber (Num (filed toKey category projects)).
Proof. apply category_count_is_filed_aux. Qed.

(** X16: the entry "all" is the number of projects plus the number of
    projects whose own category is "all"; it is the number of projects
    exactly when no project is filed under "all". *)
Theorem count_of_all (projects : list Project) :
  get (calculateCategoryCounts toKey projects) "all"
  = VNumber (Num (Z.of_nat (List.length projects)
                  + filed toKey "all" projects)).
Proof.
  unfold calculateCategoryCounts, get.
  rewrite (fold_counts_all projects _ (Z.of_nat (List.length projects))).
  - reflexivity.
  - intros H. destruct projects; [congruence | simpl; lia].
  - reflexivity.
Qed.

(** X17: when every category is a string, the count on the button of a
    category (other than "all" and the names of [Object.prototype]) is
    the number of cards that a click on it shows while the type filter is
    "all". *)
Theorem count_matches_filtered_list (st : State) (category : string) :
  (forall s, toKey (JStr s) = s) ->
  Forall (fun p => exists s, Loader.category p = JStr s) (projects st) ->
  inherited category = false ->
  category <> "all" ->
  countOf (calculateCategoryCounts toKey (projects st)) category
  = VNumber (Num (Z.of_nat (List.length
       (filteredProjects
          (handleAll [Type_ "all"; Category category] st))))).
Proof.
  intros Hkey Hstr Hi Hall.
  rewrite category_count_is_filed_aux by assumption.
  do 3 f_equal.
  rewrite handleAll_state.
  cbn [filteredProjects categoryAfter typeAfter fold_left].
  unfold filed. do 2 f_equal. apply filter_ext_in.
  intros p Hp. rewrite Forall_forall in Hstr.
  destruct (Hstr p Hp) as [s Hs]. unfold selected. rewrite Hs, Hkey.
  cbn [strict_eq_str]. destruct (String.eqb_spec category "all");
    [contradiction|]. cbn [orb]. rewrite String.eqb_refl.
  now rewrite andb_true_r.
Qed.

End CountFacts.

(** ** The image cache and the thumbnails *)

Section ThumbnailFacts.
Import Js Regex Text Embed Loader Thumbnails.








End ThumbnailFacts.

(** ** The empty state *)

Section EmptyStateFacts.
Import Js Loader Filter FilterClicks Counts Thumbnails Grid.

Variable toKey : jsval -> string.

Lemma label_not_inherited (category l : string) :
  getCategoryLabel category = Text l -> inherited category = false.
Proof.
  unfold getCategoryLabel.
  destruct (labelFor category labels) as [l'|] eqn:E.
  - intros _. unfold labels in E. cbn [labelFor] in E.
    repeat match type of E with
           | (if String.eqb ?k category then _ else _) = _ =>
               destruct (String.eqb_spec k category) as [<-|_];
               [reflexivity|]
           end.
    discriminate.
  - destruct (inherited category); [discriminate | reflexivity].
Qed.

Lemma filter_empty_all (ps : list Project) :
  filter (selected "all" "all") ps = ps.
Proof. now apply filter_all. Qed.

(** X19: what the empty state says is true of the projects.  Let the
    filters have been set by clicks, let every category be a string, and
    let the counts be those computed from the projects.  If the grid then
    shows the empty state: without the Clear All Filters button there is
    no project at all; a total given in the message is the number of
    projects of the selected category, it is positive, and the type filter
    is not "all"; and a click on the button brings back every project. *)
Theorem empty_state_is_accurate
        (k : click) (ks : list click) (st : State)
        (cache : Cache) (e : EmptyState) :
  (forall s, toKey (JStr s) = s) ->
  Forall (fun p => exists s, category p = JStr s) (projects st) ->
  renderProjects (calculateCategoryCounts toKey (projects st)) cache
                 (handleAll (k :: ks) st)
  = Normal (EmptyGrid e) ->
  filteredProjects (handleAll (k :: ks) st) = []
  /\ (clearButton e = false -> projects st = [])
  /\ (forall name n,
        message e = NoneInCategory name (Some n) ->
        n = filed toKey (currentCategory (handleAll (k :: ks) st))
                  (projects st)
        /\ 0 < n
        /\ currentType (handleAll (k :: ks) st) <> "all")
  /\ filteredProjects (handle Clear (handleAll (k :: ks) st)) = projects st.
Proof.
  intros Hkey Hstr. rewrite handleAll_state.
  set (c := categoryAfter (k :: ks) (currentCategory st)).
  set (t := typeAfter (k :: ks) (currentType st)).
  unfold renderProjects. cbn [filteredProjects].
  destruct (filter (selected c t) (projects st)) as [|p0 l] eqn:Hf.
  2:{ cbn [List.length Nat.eqb].
      destruct (createCards cache (p0 :: l)); discriminate. }
  cbn [List.length Nat.eqb]. unfold showEmptyState.
  cbn [currentCategory currentType].
  intros H. split; [reflexivity|]. split; [|split].
  - destruct (String.eqb_spec c "all") as [Hc|Hc]; cbn [negb] in H.
    + destruct (String.eqb_spec t "all") as [Ht|Ht]; cbn [negb bind] in H;
        injection H as <-; cbn [clearButton orb]; [|discriminate].
      intros _. rewrite Hc, Ht, filter_empty_all in Hf. exact Hf.
    + cbv zeta in H.
      destruct (getCategoryLabel c); cbn [bind] in H; [|discriminate].
      injection H as <-. discriminate.
  - intros name n Hm.
    destruct (String.eqb_spec c "all") as [Hc|Hc]; cbn [negb] in H.
    + destruct (String.eqb_spec t "all"); cbn [negb bind] in H;
        injection H as <-; discriminate.
    + cbv zeta in H.
      destruct (getCategoryLabel c) as [l|] eqn:Hl; cbn [bind] in H;
        [|discriminate].
      injection H as <-. cbn [message] in Hm. injection Hm as _ Hpos.
      rewrite (category_count_is_filed_aux toKey) in Hpos;
        [|eapply label_not_inherited; eauto | exact Hc].
      cbn [positive] in Hpos.
      destruct (Z.ltb_spec 0 (filed toKey c (projects st))); [|discriminate].
      injection Hpos as <-. split; [reflexivity|]. split; [assumption|].
      intros Ht.
      assert (filed toKey c (projects st) = 0); [|lia].
      unfold filed.
      replace (filter (fun p => String.eqb (toKey (category p)) c)
                      (projects st))
        with (filter (selected c t) (projects st)); [now rewrite Hf|].
      apply filter_ext_in. intros p Hp. rewrite Forall_forall in Hstr.
      destruct (Hstr p Hp) as [s Hs]. unfold selected.
      rewrite Hs, Hkey, Ht. cbn [strict_eq_str].
      destruct (String.eqb_spec c "all"); [contradiction|].
      cbn [orb]. now rewrite andb_true_r.
  - rewrite handle_state. cbn [filteredProjects projects].
    cbn [categoryAfter typeAfter fold_left]. apply filter_empty_all.
Qed.

End EmptyStateFacts.

(** ** The frame of the modal *)

Section ModalFrame.
Import Js Loader Filter Modal Embed ModalView.





End ModalFrame.

(** ** Examples for the properties with hypotheses *)

Section Examples.
Import Js Loader Filter FilterClicks Counts Thumbnails Grid.

Lemma category_count_is_number_filed_witness :
  countOf (calculateCategoryCounts stringKey (projects sample_state)) "video"
  = VNumber (Num 2).
Proof.
  exact (category_count_is_number_filed stringKey (projects sample_state)
           "video" eq_refl ltac:(discriminate)).
Defined.

Lemma sample_categories_are_strings :
  Forall (fun p => exists s, category p = JStr s) (projects sample_state).
Proof. repeat constructor; eexists; reflexivity. Defined.

Lemma count_matches_filtered_list_witness :
  countOf (calculateCategoryCounts stringKey (projects sample_state)) "video"
  = VNumber (Num (Z.of_nat (List.length
       (filteredProjects
          (handleAll [Type_ "all"; Category "video"] sample_state))))).
Proof.
  exact (count_matches_filtered_list stringKey sample_state "video"
           (fun s => eq_refl) sample_categories_are_strings
           eq_refl ltac:(discriminate)).
Defined.


Lemma empty_state_is_accurate_witness :
  filteredProjects
    (handleAll [Category "graphic"; Type_ "Short"] sample_state) = []
  /\ (forall name n,
        NoneInCategory "graphic design" (Some 1)
        = NoneInCategory name (Some n) ->
        n = filed stringKey "graphic" (projects sample_state)
        /\ 0 < n
        /\ currentType
             (handleAll [Category "graphic"; Type_ "Short"] sample_state)
           <> "all").
Proof.
  pose proof (empty_state_is_accurate stringKey
                (Category "graphic") [Type_ "Short"] sample_state []
                {| message := NoneInCategory "graphic design" (Some 1);
                   clearButton := true |}
                (fun s => eq_refl) sample_categories_are_strings eq_refl)
    as (H1 & _ & H3 & _).
  split; [exact H1 | exact H3].
Defined.

End Examples.

(** ** Further properties of the lazy loader and of the date parser *)

Section MoreFacts.
Import Js DateParser LazyLoad.

Lemma step_length pg pg' :
  step pg pg' -> List.length (dom pg') = List.length (dom pg).
Proof.
  intros [v layout pg0 | v layout pg0].
  - unfold onScroll. destruct (scrollListener pg0); [|reflexivity].
    cbn [dom]. apply lazyLoadHandler_length.
  - apply initLazyLoading_length.
Qed.

Lemma step_waiting_back pg pg' i e' :
  step pg pg' ->
  nth_error (dom pg') i = Some e' -> waiting e' = true ->
  nth_error (dom pg) i = Some e'.
Proof.
  intros Hstep Hi Hw.
  assert (i < List.length (dom pg))%nat as Hlt.
  { rewrite <- (step_length pg pg' Hstep). apply nth_error_Some. congruence. }
  destruct (nth_error (dom pg) i) as [e|] eqn:He.
  2:{ apply nth_error_None in He. lia. }
  assert (Hnone : data_src e' = None -> False).
  { intros Hd. unfold waiting in Hw. rewrite Hd in Hw.
    rewrite andb_false_r in Hw. discriminate. }
  destruct Hstep as [v layout pg0 | v layout pg0].
  - unfold onScroll in Hi. destruct (scrollListener pg0); [|congruence].
    cbn [dom] in Hi. rewrite (lazyLoadHandler_nth v layout _ i e He) in Hi.
    injection Hi as <-.
    destruct (handler_element_result v (layout i) e) as [E|E];
      [now rewrite E | contradiction].
  - rewrite (initLazyLoading_nth v layout _ i e He) in Hi.
    injection Hi as <-.
    destruct (init_element_result v (layout i) e) as [E|E];
      [now rewrite E | contradiction].
Qed.

(** X21: the lazy loader makes progress only.  Over any sequence of its
    steps no element starts to wait: an element that waits for activation
    afterwards is the same element that waited at that position before.
    And after a pass of [initLazyLoading] in which every rectangle lies
    inside the viewport, no element is left waiting. *)
Theorem waiting_elements_only_decrease :
  (forall pg pg' i e',
      steps pg pg' ->
      nth_error (dom pg') i = Some e' -> waiting e' = true ->
      nth_error (dom pg) i = Some e')
  /\ (forall v layout pg e',
        (forall i, isInViewport v (layout i) = true) ->
        In e' (dom (initLazyLoading v layout pg)) ->
        waiting e' = false).
Proof.
  split.
  - intros pg pg' i e' Hsteps. revert i e'.
    induction Hsteps as [pg | pg1 pg2 pg3 Hstep _ IH]; intros i e' Hi Hw.
    + exact Hi.
    + eapply step_waiting_back; eauto.
  - intros v layout pg e' Hall Hin.
    apply In_nth_error in Hin. destruct Hin as [i Hi].
    assert (i < List.length (dom pg))%nat as Hlt.
    { rewrite <- (initLazyLoading_length v layout pg).
      apply nth_error_Some. congruence. }
    destruct (nth_error (dom pg) i) as [e|] eqn:He.
    2:{ apply nth_error_None in He. lia. }
    rewrite (initLazyLoading_nth v layout pg i e He) in Hi.
    injection Hi as <-.
    destruct (waiting e) eqn:Hw.
    + destruct (init_element_activates v (layout i) e Hw (Hall i))
        as (Hd & _).
      unfold waiting. rewrite Hd. apply andb_false_r.
    + rewrite init_element_untouched; [exact Hw | now rewrite Hw].
Qed.

Lemma waiting_elements_only_decrease_witness :
  forallb (fun e => negb (waiting e))
    (dom (initLazyLoading window1200x800 (fun _ => rect_inside)
            {| dom := [lazy_img "a.png"; placeholder "b"];
               scrollListener := false |})) = true.
Proof.
  apply forallb_forall. intros e He. apply negb_true_iff.
  exact (proj2 waiting_elements_only_decrease window1200x800
           (fun _ => rect_inside)
           {| dom := [lazy_img "a.png"; placeholder "b"];
              scrollListener := false |} e (fun _ => eq_refl) He).
Defined.

(** X22: the date parser does not look at the case of letters: two
    strings with the same lower-case form get the same result. *)
Theorem parseYearMonth_ignores_case (s s' : string) :
  toLowerCase s = toLowerCase s' ->
  parseYearMonth (JStr s) = parseYearMonth (JStr s').
Proof.
  intros H. now rewrite !parseYearMonth_string, H.
Qed.

Lemma parseYearMonth_ignores_case_witness :
  parseYearMonth (JStr "AUGUST 2024") = parseYearMonth (JStr "august 2024")
  /\ parseYearMonth (JStr "UNKNOWN DATE")
     = parseYearMonth (JStr "Unknown Date").
Proof.
  split; apply parseYearMonth_ignores_case; reflexivity.
Defined.

End MoreFacts.

(** ** The load as a whole *)

Section StartupFacts.
Import Js Loader Filter Counts Thumbnails Grid Startup.

Variable toKey : jsval -> string.










End StartupFacts.

Section StartupExamples.
Import Js Loader Filter Counts Thumbnails Grid Startup.


End StartupExamples.
